(** * The alert service of aggr (src/services/alertService.ts)

    A shallow embedding of [AlertService]: the decoding of the application
    key, the alerts of a pane, the reconciliation of triggered alerts, the
    sync gate in front of [getAlerts], the push subscription, the price
    validator, the remote registration client and the create / move / remove
    facade.

    Conventions of the embedding.
    - A JavaScript number is an IEEE-754 binary64 value: Rocq's primitive
      [float].  [===] on numbers is [PrimFloat.eqb] (NaN differs from itself,
      the two zeros are equal) and [<] is [PrimFloat.ltb].
    - An [async] method is a function of the state-and-exception monad [M]:
      it returns [Ok v] when its promise fulfils with [v], [Throw e] when it
      rejects with [e], and [Hang] when an awaited promise never settles.
      One call runs without interleaving of other calls; the suspensions
      that are modelled as such are the [await] of the sync gate in
      [getAlerts] (see [getAlerts_call], [getAlerts_resume] and [step]) and
      the first [await] of the marking that a ['message'] listener starts
      and does not await (see [on_message]).
    - Alert records passed to the facade are JavaScript objects shared between
      the caller, the in-memory list and the service: they live in [heap] and
      are named by their location.
    - Everything the service does to the outside is appended to [trace]. *)

From Stdlib Require Import PrimFloat Ascii.
From stdpp Require Import gmap strings list sorting.

(** ** JavaScript values *)

Inductive JsVal :=
| VUndefined
| VNull
| VBool (b : bool)
| VNum (n : float)
| VStr (s : string).

(** [typeof v === 'number'] *)
Definition is_number (v : JsVal) : option float :=
  match v with VNum n => Some n | _ => None end.

(** Truthiness of a number: [0], [-0] and [NaN] are falsy. *)
Definition truthy_num (n : float) : bool :=
  negb (PrimFloat.is_nan n || PrimFloat.eqb n 0%float).

(** Truthiness of a string: only the empty string is falsy. *)
Definition truthy_str (s : string) : bool :=
  match s with EmptyString => false | String _ _ => true end.

(** Truthiness of an optional string ([undefined] is falsy). *)
Definition truthy_ostr (o : option string) : bool :=
  match o with Some s => truthy_str s | None => false end.

(** A thrown value: an [Error] object with its [name] and [message]. *)
Record JsError := mkError { e_name : string; e_message : string }.

Definition TypeError (msg : string) : JsError := mkError "TypeError" msg.
Definition PlainError (msg : string) : JsError := mkError "Error" msg.

(** The messages of the engine for a property read on [undefined] / [null]
    and for a call of a value that is not a function. *)
Definition read_of_undefined (prop : string) : JsError :=
  TypeError ("Cannot read properties of undefined (reading '" +:+ prop +:+ "')").
Definition read_of_null (prop : string) : JsError :=
  TypeError ("Cannot read properties of null (reading '" +:+ prop +:+ "')").
Definition not_a_function (what : string) : JsError :=
  TypeError (what +:+ " is not a function").

(** ** Data model *)

(** Modelled from the spec: the [MarketAlert] type of [@/types/types] is not
    part of the sources; its fields are the ones of the spec's Alert
    ([market], [price], [timestamp], [active], [triggered]).  The two flags
    are booleans; an absent flag reads as [false]. *)
Record MarketAlert := mkAlert {
  price : float;
  market : string;
  timestamp : float;
  active : bool;
  triggered : bool
}.

Definition set_triggered (b : bool) (a : MarketAlert) : MarketAlert :=
  mkAlert (price a) (market a) (timestamp a) (active a) b.
Definition set_active (b : bool) (a : MarketAlert) : MarketAlert :=
  mkAlert (price a) (market a) (timestamp a) b (triggered a).
Definition set_price (p : float) (a : MarketAlert) : MarketAlert :=
  mkAlert p (market a) (timestamp a) (active a) (triggered a).

(** The argument of [markAlertsAsTriggered]: what a notification or a push
    message carries.  The declared type is [{ price: number; market: string }]
    but the data comes from outside, so the price is any value and the market
    may be missing. *)
Record TriggerEvent := mkTrigger {
  t_price : JsVal;
  t_market : option string;
  t_direction : JsVal
}.

(** The serialised push subscription (an opaque plain object). *)
Record PushSubscription := mkSub { endpoint : string }.

(** [interface AlertResponse]; [alert] is [any] in the source and is read
    through its [market] and [price] only. *)
Record AlertJson := mkAlertJson { j_market : JsVal; j_price : JsVal }.

Record AlertResponse := mkResponse {
  error : option string;
  markets : option (list string);
  alert : option AlertJson;
  priceOffset : option float
}.

(** [{ error: err.message }] *)
Definition error_response (msg : string) : AlertResponse :=
  mkResponse (Some msg) None None None.

(** The JSON body of a POST to the alerting backend. *)
Record RequestBody := mkBody {
  rb_subscription : PushSubscription;
  rb_origin : string;
  rb_market : string;
  rb_price : float;
  rb_currentPrice : JsVal;
  rb_unsubscribe : option bool;
  rb_status : option bool;
  rb_newPrice : option float
}.

(** What [fetch(...).then(response => response.json())] can produce.  The
    status code of a response is never inspected by the service. *)
Inductive JsonBody :=
| BodyNotJson (e : JsError)          (* response.json() rejects *)
| BodyNull                           (* the JSON value null *)
| BodyObject (data : AlertResponse).

Inductive FetchOutcome :=
| NetworkError (e : JsError)         (* fetch rejects *)
| Response (status : nat) (body : JsonBody).

(** The platform behind [getPushSubscription]. *)
Inductive Platform :=
| NoServiceWorker                    (* 'serviceWorker' in navigator is false *)
| NoRegistration                     (* getRegistration('sw.js') gives undefined *)
| KeyRejected (e : JsError)          (* decoding the key throws: subscribe is not called *)
| SubscribeFails (e : JsError)       (* pushManager.subscribe(...) rejects *)
| Subscribed (s : PushSubscription).

(** The next ['prices'] snapshot of the aggregator, if there is ever one. *)
Inductive PriceFeed :=
| NeverPublishes
| Snapshot (stats : string -> option float).

(** Everything outside the service that one call depends on. *)
Record Env := mkEnv {
  publicVapidKey : option string;    (* process.env.VUE_APP_PUBLIC_VAPID_KEY *)
  platform : Platform;
  href : string;                     (* location.href *)
  prices : PriceFeed;
  network : RequestBody -> FetchOutcome
}.

(** Payloads of [aggregatorService.emit('alert', ...)]. *)
Inductive AlertEvent :=
| EvAdd (p : float) (m : string) (ts : float)        (* { price, market, timestamp, add: true } *)
| EvMove (p : float) (m : string) (newPrice : float) (* { price, market, newPrice } *)
| EvRemove (p : float) (m : string)                  (* { price, market, remove: true } *)
| EvTrigger (data : TriggerEvent).                   (* event.data of a push message *)

(** Titles of [store.dispatch('app/showNotice', ...)], as the templates of the
    source with their holes. *)
Inductive Notice :=
| NAdded (m : string) (p : float)            (* `Added ${market} @${price}`, success *)
| NRemoved (a : AlertJson)                   (* `Removed ${alert.market} @${alert.price}`, success *)
| NNotFound                                  (* `Alert not found (or expired)` *)
| NRegistrationFailure (message : string).   (* id 'alert-registration-failure', error *)

Definition loc := nat.

Inductive Effect :=
| EPushSubscribe                                     (* register.pushManager.subscribe(...) *)
| EFetch (body : RequestBody)                        (* fetch(this.url, { method: 'POST', ... }) *)
| EHandleFetchError (e : JsError)                    (* handleFetchError(err) *)
| EConsoleError (p marketPrice : float)              (* console.error(`[alert] price ...`) *)
| ENotice (n : Notice)
| EEmit (ev : AlertEvent)
| EAssign (l : loc) (a : MarketAlert)                (* an assignment to a field of record l *)
| EStoreGet (m : string)                             (* workspacesService.getAlerts(market) *)
| EStoreSave (m : string) (alerts : list MarketAlert) (* workspacesService.saveAlerts({market, alerts}) *)
| ESyncCalled (g : nat)                              (* syncTriggeredAlerts() creates promise g *)
| EGateFulfilled (g : nat)                           (* promise g fulfils *)
| EGetAlertsCalled (g : option nat)                  (* getAlerts starts, gate it sees *)
| EGetAlertsReturned (g : option nat) (m : string).  (* getAlerts returns the store's answer *)

(** The state of one sync promise. *)
Inductive GateState :=
| GWaiting                 (* pending: navigator.serviceWorker.ready has not called back *)
| GStuck                   (* pending for ever: the recovery threw before resolve() *)
| GFulfilled
| GRejected (e : JsError).

Record World := mkWorld {
  pushSubscription : option PushSubscription;   (* this.pushSubscription *)
  _promiseOfSync : option nat;                  (* this._promiseOfSync, a reference into gates *)
  gates : list GateState;                       (* every promise syncTriggeredAlerts created *)
  listeners : nat;                              (* 'message' listeners on the service worker *)
  pending : list (nat * string);                (* getAlerts calls suspended on their gate *)
  heap : loc -> MarketAlert;                    (* alert records, by reference *)
  db : gmap string (list MarketAlert);          (* the Store Adapter's content *)
  trace : list Effect
}.

Definition with_pushSubscription (s : option PushSubscription) (w : World) : World :=
  mkWorld s (_promiseOfSync w) (gates w) (listeners w) (pending w) (heap w) (db w) (trace w).
Definition with_promiseOfSync (g : option nat) (w : World) : World :=
  mkWorld (pushSubscription w) g (gates w) (listeners w) (pending w) (heap w) (db w) (trace w).
Definition with_gates (gs : list GateState) (w : World) : World :=
  mkWorld (pushSubscription w) (_promiseOfSync w) gs (listeners w) (pending w) (heap w) (db w) (trace w).
Definition with_listeners (n : nat) (w : World) : World :=
  mkWorld (pushSubscription w) (_promiseOfSync w) (gates w) n (pending w) (heap w) (db w) (trace w).
Definition with_pending (p : list (nat * string)) (w : World) : World :=
  mkWorld (pushSubscription w) (_promiseOfSync w) (gates w) (listeners w) p (heap w) (db w) (trace w).
Definition with_heap (h : loc -> MarketAlert) (w : World) : World :=
  mkWorld (pushSubscription w) (_promiseOfSync w) (gates w) (listeners w) (pending w) h (db w) (trace w).
Definition with_db (d : gmap string (list MarketAlert)) (w : World) : World :=
  mkWorld (pushSubscription w) (_promiseOfSync w) (gates w) (listeners w) (pending w) (heap w) d (trace w).
Definition with_trace (t : list Effect) (w : World) : World :=
  mkWorld (pushSubscription w) (_promiseOfSync w) (gates w) (listeners w) (pending w) (heap w) (db w) t.

(** ** The monad of asynchronous methods *)

Inductive Result (A : Type) :=
| Ok (a : A)
| Throw (e : JsError)
| Hang.
Arguments Ok {A} a.
Arguments Throw {A} e.
Arguments Hang {A}.

Definition M (A : Type) : Type := World -> Result A * World.

Definition ret {A} (a : A) : M A := fun w => (Ok a, w).
Definition throw {A} (e : JsError) : M A := fun w => (Throw e, w).
Definition hang {A} : M A := fun w => (Hang, w).

Definition bind {A B} (c : M A) (k : A -> M B) : M B := fun w =>
  match c w with
  | (Ok a, w1) => k a w1
  | (Throw e, w1) => (Throw e, w1)
  | (Hang, w1) => (Hang, w1)
  end.

(** [try { c } catch (err) { h(err) }], also [promise.catch(h)]. *)
Definition try_catch {A} (c : M A) (h : JsError -> M A) : M A := fun w =>
  match c w with
  | (Throw e, w1) => h e w1
  | r => r
  end.

Declare Scope async_scope.
Delimit Scope async_scope with async.
Notation "x <- c ;; k" := (bind c (fun x => k))
  (at level 20, c at level 99, k at level 200, only parsing) : async_scope.
Notation "c ;; k" := (bind c (fun _ => k))
  (at level 100, k at level 200, only parsing, right associativity) : async_scope.
Local Open Scope async_scope.

Definition log (e : Effect) : M unit := fun w =>
  (Ok tt, with_trace (trace w ++ [e]) w).

Definition read (l : loc) : M MarketAlert := fun w => (Ok (heap w l), w).

(** An assignment [record.field = v], as a function on the record. *)
Definition assign (l : loc) (f : MarketAlert -> MarketAlert) : M unit := fun w =>
  let a := f (heap w l) in
  (Ok tt, with_trace (trace w ++ [EAssign l a])
            (with_heap (fun l' => if Nat.eqb l' l then a else heap w l') w)).

(** The records an array of references points to, as they are now. *)
Definition deref (ls : list loc) : M (list MarketAlert) := fun w =>
  (Ok (map (heap w) ls), w).

Definition emit (ev : AlertEvent) : M unit := log (EEmit ev).
Definition showNotice (n : Notice) : M unit := log (ENotice n).

(** ** The Store Adapter *)

(** Modelled from the spec: [workspacesService] is not part of the sources.
    Per the spec's interface, [getAlerts(market) -> Alert[]] loads the
    market's list (the empty list when nothing is stored; the callers read
    [.length] of the result without a check) and [saveAlerts({market,
    alerts}) -> void] stores the list as it is at the time of the call.
    Neither rejects. *)
Definition stored (d : gmap string (list MarketAlert)) (m : string) : list MarketAlert :=
  default [] (d !! m).

Definition store_getAlerts (m : string) : M (list MarketAlert) := fun w =>
  (Ok (stored (db w) m), with_trace (trace w ++ [EStoreGet m]) w).

Definition store_saveAlerts (m : string) (alerts : list MarketAlert) : M unit := fun w =>
  (Ok tt, with_trace (trace w ++ [EStoreSave m alerts]) (with_db (<[m := alerts]> (db w)) w)).

(** ** Reconciliation: [markAlertsAsTriggered] *)

(** The accumulator of the [reduce] is the object literal [{}]: its own
    properties (in insertion order) are the markets seen so far, and a read of
    any other key falls through to [Object.prototype]. *)
Definition inherited_key (k : string) : bool :=
  existsb (String.eqb k)
    ["constructor"; "__proto__"; "hasOwnProperty"; "isPrototypeOf";
     "propertyIsEnumerable"; "toLocaleString"; "toString"; "valueOf";
     "__defineGetter__"; "__defineSetter__"; "__lookupGetter__";
     "__lookupSetter__"].

Inductive Property :=
| POwn (prices : list float)     (* an array this reduce created *)
| PInherited                     (* a member of Object.prototype: truthy, no push *)
| PUndefined.

Fixpoint own (acc : list (string * list float)) (k : string) : option (list float) :=
  match acc with
  | [] => None
  | (k', ps) :: rest => if String.eqb k' k then Some ps else own rest k
  end.

(** [acc[market]] *)
Definition get_property (acc : list (string * list float)) (k : string) : Property :=
  match own acc k with
  | Some ps => POwn ps
  | None => if inherited_key k then PInherited else PUndefined
  end.

(** [acc[market].push(price)] on an own array *)
Fixpoint push_price (k : string) (p : float) (acc : list (string * list float))
  : list (string * list float) :=
  match acc with
  | [] => []
  | (k', ps) :: rest =>
      if String.eqb k' k then (k', ps ++ [p]) :: rest
      else (k', ps) :: push_price k p rest
  end.

(** The callback of [alerts.reduce(..., {})]. *)
Definition group_step (acc : list (string * list float)) (ev : TriggerEvent)
  : Result (list (string * list float)) :=
  match t_market ev, is_number (t_price ev) with
  | Some m, Some p =>
      if truthy_str m then
        match get_property acc m with
        | PUndefined => Ok (push_price m p (acc ++ [(m, [])]))
        | POwn _ => Ok (push_price m p acc)
        | PInherited => Throw (not_a_function "acc[market].push")
        end
      else Ok acc
  | _, _ => Ok acc
  end.

Fixpoint group_from (acc : list (string * list float)) (evs : list TriggerEvent)
  : Result (list (string * list float)) :=
  match evs with
  | [] => Ok acc
  | ev :: rest =>
      match group_step acc ev with
      | Ok acc' => group_from acc' rest
      | r => r
      end
  end.

Definition group (evs : list TriggerEvent) : Result (list (string * list float)) :=
  group_from [] evs.

(** The order of [for (const market in markets)]: keys that are array indices
    (canonical decimal numerals below 2^32 - 1) in ascending order, then the
    other keys in insertion order. *)
Definition digit_of (c : Ascii.ascii) : option N :=
  let n := Ascii.N_of_ascii c in
  if ((48 <=? n) && (n <=? 57))%N then Some (n - 48)%N else None.

Fixpoint digits_value (s : string) (acc : N) : option N :=
  match s with
  | EmptyString => Some acc
  | String c s' =>
      match digit_of c with
      | Some d => digits_value s' (10 * acc + d)%N
      | None => None
      end
  end.

Definition array_index (k : string) : option N :=
  match k with
  | EmptyString => None
  | String c rest =>
      if Ascii.eqb c "0"%char && truthy_str rest then None
      else match digits_value k 0 with
           | Some n => if (n <? 4294967295)%N then Some n else None
           | None => None
           end
  end.

Definition index_le (x y : N * (string * list float)) : Prop := (x.1 ≤ y.1)%N.

#[global] Instance index_le_dec x y : Decision (index_le x y).
Proof. unfold index_le. apply _. Defined.

Definition indexed (e : string * list float) : option (N * (string * list float)) :=
  match array_index e.1 with Some n => Some (n, e) | None => None end.

Definition is_named (e : string * list float) : bool :=
  match array_index e.1 with Some _ => false | None => true end.

Definition for_in_order (acc : list (string * list float)) : list (string * list float) :=
  map snd (merge_sort index_le (omap indexed acc)) ++ List.filter is_named acc.

(** [alerts.find(a => a.price === price)] followed by [alert.triggered = true]
    when an alert was found. *)
Fixpoint mark_first (p : float) (alerts : list MarketAlert) : list MarketAlert :=
  match alerts with
  | [] => []
  | a :: rest =>
      if PrimFloat.eqb (price a) p then set_triggered true a :: rest
      else a :: mark_first p rest
  end.

(** [for (const price of markets[market]) ...] *)
Definition mark_prices (ps : list float) (alerts : list MarketAlert) : list MarketAlert :=
  fold_left (fun al p => mark_first p al) ps alerts.

(** One turn of the loop over the markets. *)
Definition mark_market (entry : string * list float) : M unit :=
  alerts <- store_getAlerts entry.1 ;;
  match alerts with
  | [] => ret tt
  | _ :: _ => store_saveAlerts entry.1 (mark_prices entry.2 alerts)
  end.

Fixpoint for_each {A} (f : A -> M unit) (l : list A) : M unit :=
  match l with
  | [] => ret tt
  | x :: rest => f x ;; for_each f rest
  end.

Definition markAlertsAsTriggered (alerts : list TriggerEvent) : M unit :=
  match group alerts with
  | Ok markets => for_each mark_market (for_in_order markets)
  | Throw e => throw e
  | Hang => hang
  end.

(** ** Push Channel Manager: [getPushSubscription] *)

Definition getPushSubscription (env : Env) : M (option PushSubscription) := fun w =>
  if negb (truthy_ostr (publicVapidKey env)) then (Ok None, w)
  else
    match pushSubscription w with
    | Some s => (Ok (Some s), w)
    | None =>
        match platform env with
        | NoServiceWorker => (Ok None, w)
        | NoRegistration => (Throw (read_of_undefined "pushManager"), w)
        | KeyRejected e => (Throw e, w)
        | SubscribeFails e => (Throw e, with_trace (trace w ++ [EPushSubscribe]) w)
        | Subscribed s =>
            (Ok (Some s),
             with_pushSubscription (Some s) (with_trace (trace w ++ [EPushSubscribe]) w))
        end
    end.

(** ** Alert Validator: [getPrice] and [validateAlert] *)

Definition getPrice (env : Env) (m : string) : M (option float) :=
  match prices env with
  | NeverPublishes => hang
  | Snapshot stats => ret (stats m)
  end.

(** [(price / marketPrice - 1) * 100] *)
Definition percentChange (p marketPrice : float) : float :=
  PrimFloat.mul (PrimFloat.sub (PrimFloat.div p marketPrice) 1%float) 100%float.

Definition too_far (p marketPrice : float) : bool :=
  PrimFloat.ltb p 0%float
  || PrimFloat.ltb 100%float (percentChange p marketPrice)
  || PrimFloat.ltb (percentChange p marketPrice) (-50)%float.

Definition validateAlert (env : Env) (m : string) (p : float) : M bool :=
  marketPrice <- getPrice env m ;;
  match marketPrice with
  | Some mp =>
      if truthy_num mp then
        if too_far p mp then log (EConsoleError p mp) ;; ret false
        else ret true
      else ret true
  | None => ret true
  end.

(** ** Remote Registration Client: [toggleAlert], [subscribe], [unsubscribe] *)

(** Modelled from the spec: [handleFetchError] of [@/utils/helpers] is not
    part of the sources.  The spec has the client convert a failure into a
    result and never throw past its boundary, so the helper reports the error
    and returns. *)
Definition handleFetchError (e : JsError) : M unit := log (EHandleFetchError e).

(** [location.href.replace(/#.*/, '')]; an href holds no line terminator. *)
Fixpoint strip_hash (s : string) : string :=
  match s with
  | EmptyString => EmptyString
  | String c rest => if Ascii.eqb c "#"%char then EmptyString else String c (strip_hash rest)
  end.

Definition post (env : Env) (body : RequestBody) : M FetchOutcome :=
  log (EFetch body) ;; ret (network env body).

(** [.then(response => response.json()).then(data => { if (data.error) throw
    new Error(data.error); return data })] *)
Definition parsed (o : FetchOutcome) : M AlertResponse :=
  match o with
  | NetworkError e => throw e
  | Response _ (BodyNotJson e) => throw e
  | Response _ BodyNull => throw (read_of_null "error")
  | Response _ (BodyObject data) =>
      if truthy_ostr (error data) then throw (PlainError (default "" (error data)))
      else ret data
  end.

Definition toggleAlert (env : Env) (m : string) (p : float) (currentPrice : JsVal)
    (unsubscribe status : option bool) : M (option AlertResponse) :=
  subscription <- getPushSubscription env ;;
  match subscription with
  | None => ret None
  | Some sub =>
      valid <- validateAlert env m p ;;
      if negb valid then ret None
      else
        let origin := strip_hash (href env) in
        try_catch
          (o <- post env (mkBody sub origin m p currentPrice unsubscribe status None) ;;
           data <- parsed o ;;
           ret (Some data))
          (fun err => handleFetchError err ;; ret (Some (error_response (e_message err))))
  end.

Definition optional_number (o : option float) : JsVal :=
  match o with Some n => VNum n | None => VUndefined end.

Definition subscribe (env : Env) (m : string) (p : float) (currentPrice : option float)
  : M AlertResponse :=
  data <- toggleAlert env m p (optional_number currentPrice) None None ;;
  match data with
  | None => throw (read_of_undefined "error")
  | Some d =>
      (if negb (truthy_ostr (error d)) then showNotice (NAdded m p) else ret tt) ;;
      ret d
  end.

Definition unsubscribe (env : Env) (m : string) (p : float) : M AlertResponse :=
  data <- toggleAlert env m p VNull (Some true) None ;;
  match data with
  | None => throw (read_of_undefined "alert")
  | Some d =>
      match alert d with
      | Some a => showNotice (NRemoved a)
      | None => if negb (truthy_ostr (error d)) then showNotice NNotFound else ret tt
      end ;;
      ret d
  end.

(** ** Alert Lifecycle Facade: [createAlert], [moveAlert], [removeAlert] *)

(** [createAlert] pushes onto the caller's array; the array after the push is
    the value the model returns. *)
Definition createAlert (env : Env) (createdAlert : loc) (marketAlerts : list loc)
    (currentPrice : option float) : M (list loc) :=
  let marketAlerts := marketAlerts ++ [createdAlert] in
  a <- read createdAlert ;;
  try_catch
    (data <- subscribe env (market a) (price a) currentPrice ;;
     assign createdAlert (set_active (negb (truthy_ostr (error data)))))
    (fun err => showNotice (NRegistrationFailure (e_message err))) ;;
  a <- read createdAlert ;;
  alerts <- deref marketAlerts ;;
  store_saveAlerts (market a) alerts ;;
  emit (EvAdd (price a) (market a) (timestamp a)) ;;
  ret marketAlerts.

(** [.then(response => response.json()).then(json => { if (json.error) throw
    new Error(json.error); return true }).catch(err => { handleFetchError(err);
    return false })] *)
Definition registered (o : FetchOutcome) : M bool :=
  try_catch (parsed o ;; ret true) (fun err => handleFetchError err ;; ret false).

Definition moveAlert (env : Env) (movedAlert : loc) (newPrice : float)
    (currentPrice : float) (marketAlerts : list loc) : M unit :=
  subscription <- getPushSubscription env ;;
  match subscription with
  | None => ret tt
  | Some sub =>
      a <- read movedAlert ;;
      valid <- validateAlert env (market a) newPrice ;;
      if negb valid then ret tt
      else
        let origin := href env in
        a <- read movedAlert ;;
        o <- post env (mkBody sub origin (market a) (price a) (VNum currentPrice)
                         None None (Some newPrice)) ;;
        act <- registered o ;;
        a <- read movedAlert ;;
        emit (EvMove (price a) (market a) newPrice) ;;
        assign movedAlert (set_triggered false) ;;
        assign movedAlert (set_active act) ;;
        assign movedAlert (set_price newPrice) ;;
        a <- read movedAlert ;;
        alerts <- deref marketAlerts ;;
        store_saveAlerts (market a) alerts
  end.

(** In the [catch] of [removeAlert] the name [alert] is not bound by the
    method: it is the global [window.alert], a function, hence truthy. *)
Definition removeAlert (env : Env) (removedAlert : loc) (marketAlerts : option (list loc))
  : M unit :=
  a <- read removedAlert ;;
  (if negb (triggered a) then
     try_catch
       (unsubscribe env (market a) (price a) ;; ret tt)
       (fun err =>
          a <- read removedAlert ;;
          if active a then showNotice (NRegistrationFailure (e_message err)) else ret tt)
   else ret tt) ;;
  a <- read removedAlert ;;
  emit (EvRemove (price a) (market a)) ;;
  match marketAlerts with
  | Some ls =>
      alerts <- deref ls ;;
      store_saveAlerts (market a)
        (List.filter (fun x => negb (PrimFloat.eqb (price x) (price a))) alerts)
  | None => ret tt
  end.

Inductive Operation :=
| Create (createdAlert : loc) (marketAlerts : list loc) (currentPrice : option float)
| Move (movedAlert : loc) (newPrice currentPrice : float) (marketAlerts : list loc)
| Remove (removedAlert : loc) (marketAlerts : option (list loc)).

Definition perform (env : Env) (op : Operation) : M unit :=
  match op with
  | Create c ls cp => createAlert env c ls cp ;; ret tt
  | Move mv np cp ls => moveAlert env mv np cp ls
  | Remove r ls => removeAlert env r ls
  end.

(** ** The sync gate: [syncTriggeredAlerts] and [getAlerts] *)

(** The synchronous part of [syncTriggeredAlerts]: a new promise is created
    and assigned to [_promiseOfSync], whatever the field held.  The promise
    stored is the one returned by [.then(...)]; when [navigator.serviceWorker]
    is undefined the executor throws and the stored promise is rejected. *)
Definition syncTriggeredAlerts (env : Env) (w : World) : World :=
  let g := length (gates w) in
  let st := match platform env with
            | NoServiceWorker => GRejected (read_of_undefined "ready")
            | _ => GWaiting
            end in
  with_trace (trace w ++ [ESyncCalled g])
    (with_promiseOfSync (Some g) (with_gates (gates w ++ [st]) w)).

(** The callback of [navigator.serviceWorker.ready.then(...)] for gate [g]:
    the notifications still displayed are mapped to trigger events and
    applied; then [resolve()] runs, the ['message'] listener is installed and
    the stored promise fulfils.  When [getNotifications()] rejects or a
    notification has no [data] to read ([None]), or when the marking throws,
    [resolve()] is never reached. *)
Definition recover (g : nat) (notifications : option (list TriggerEvent)) (w : World) : World :=
  match gates w !! g with
  | Some GWaiting =>
      match notifications with
      | None => with_gates (<[g := GStuck]> (gates w)) w
      | Some evs =>
          match markAlertsAsTriggered evs w with
          | (Ok _, w1) =>
              with_trace (trace w1 ++ [EGateFulfilled g])
                (with_listeners (S (listeners w1))
                   (with_gates (<[g := GFulfilled]> (gates w1)) w1))
          | (_, w1) => with_gates (<[g := GStuck]> (gates w1)) w1
          end
      end
  | _ => w
  end.

(** The part of a turn of the loop over the markets that follows its
    [await]: the alerts are marked and saved, unless there is none. *)
Definition mark_loaded (entry : string * list float) (alerts : list MarketAlert) : M unit :=
  match alerts with
  | [] => ret tt
  | _ :: _ => store_saveAlerts entry.1 (mark_prices entry.2 alerts)
  end.

(** One ['message'] listener.  [this.markAlertsAsTriggered([event.data])] is
    started and not awaited: it runs up to its first [await], where the list
    of the first market is asked of the store; the listener then publishes
    the event; the marking and the save come after.  A rejection of the
    method is nobody's, and the event is published all the same. *)
Definition on_message (data : TriggerEvent) (w : World) : World :=
  match group [data] with
  | Ok markets =>
      match for_in_order markets with
      | entry :: rest =>
          match store_getAlerts entry.1 w with
          | (Ok alerts, w1) =>
              let w2 := snd (emit (EvTrigger data) w1) in
              snd ((mark_loaded entry alerts ;; for_each mark_market rest) w2)
          | (_, w1) => snd (emit (EvTrigger data) w1)
          end
      | [] => snd (emit (EvTrigger data) w)
      end
  | _ => snd (emit (EvTrigger data) w)
  end.

(** [getAlerts(market)] up to its [await]: with no promise in
    [_promiseOfSync] the call goes straight to the store; otherwise it is
    suspended on the promise it read. *)
Definition getAlerts_call (m : string) (w : World) : World :=
  match _promiseOfSync w with
  | Some g =>
      with_pending (pending w ++ [(g, m)])
        (with_trace (trace w ++ [EGetAlertsCalled (Some g)]) w)
  | None =>
      let w1 := with_trace (trace w ++ [EGetAlertsCalled None]) w in
      let w2 := snd (store_getAlerts m w1) in
      with_trace (trace w2 ++ [EGetAlertsReturned None m]) w2
  end.

(** The continuation of the [i]-th suspended call: it runs once its promise
    is settled, goes to the store when the promise fulfilled and throws when
    it rejected. *)
Definition getAlerts_resume (i : nat) (w : World) : World :=
  match pending w !! i with
  | Some (g, m) =>
      match gates w !! g with
      | Some GFulfilled =>
          let w1 := with_pending (delete i (pending w)) w in
          let w2 := snd (store_getAlerts m w1) in
          with_trace (trace w2 ++ [EGetAlertsReturned (Some g) m]) w2
      | Some (GRejected _) => with_pending (delete i (pending w)) w
      | _ => w
      end
  | None => w
  end.

(** ** The service as a transition system *)

Inductive Action :=
| ASync (env : Env)                                     (* syncTriggeredAlerts() *)
| AReady (g : nat) (notifications : option (list TriggerEvent))
| AMessage (data : TriggerEvent)                        (* a push message reaches the page *)
| AGetAlerts (m : string)                               (* getAlerts(market) is called *)
| AResume (i : nat)                                     (* a suspended getAlerts continues *)
| AOperation (env : Env) (op : Operation).              (* createAlert / moveAlert / removeAlert *)

Definition step (a : Action) (w : World) : World :=
  match a with
  | ASync env => syncTriggeredAlerts env w
  | AReady g ns => recover g ns w
  | AMessage data => Nat.iter (listeners w) (on_message data) w
  | AGetAlerts m => getAlerts_call m w
  | AResume i => getAlerts_resume i w
  | AOperation env op => snd (perform env op w)
  end.

Definition run (acts : list Action) (w : World) : World :=
  fold_left (fun w a => step a w) acts w.

(** A fresh process: no subscription, no gate, nothing pending. *)
Definition boot (h : loc -> MarketAlert) (d : gmap string (list MarketAlert)) : World :=
  mkWorld None None [] 0 [] h d [].

Definition reachable (w : World) : Prop :=
  exists h d acts, w = run acts (boot h d).

(** ** Vocabulary of the statements *)

(** The POSTs to the alerting backend in a trace. *)
Definition posts (t : list Effect) : list RequestBody :=
  omap (fun e => match e with EFetch b => Some b | _ => None end) t.

(** The notices shown in a trace. *)
Definition notices (t : list Effect) : list Notice :=
  omap (fun e => match e with ENotice n => Some n | _ => None end) t.

(** A trigger event that [markAlertsAsTriggered] keeps: it has a (non-empty)
    market and a numeric price. *)
Definition well_formed (ev : TriggerEvent) : option (string * float) :=
  match t_market ev, is_number (t_price ev) with
  | Some m, Some p => if truthy_str m then Some (m, p) else None
  | _, _ => None
  end.

(** The position of the first alert of a list with a price [=== p]. *)
Fixpoint first_match (p : float) (alerts : list MarketAlert) : option nat :=
  match alerts with
  | [] => None
  | a :: rest =>
      if PrimFloat.eqb (price a) p then Some 0
      else option_map S (first_match p rest)
  end.

(** The prices of the kept events of [evs] for market [m], in order. *)
Definition prices_for (m : string) (evs : list TriggerEvent) : list float :=
  omap (fun ev =>
    match well_formed ev with
    | Some (m', p) => if String.eqb m' m then Some p else None
    | None => None
    end) evs.

(** [alerts !! i] is the first alert of the list with a price [=== p]. *)
Definition first_at (alerts : list MarketAlert) (i : nat) (p : float) : bool :=
  match first_match p alerts with Some j => Nat.eqb j i | None => false end.

(** Position [i] of market [m]'s list is the first match of some kept event
    of [evs] for that market. *)
Definition hit (evs : list TriggerEvent) (m : string) (alerts : list MarketAlert) (i : nat) : bool :=
  existsb (fun ev =>
    match well_formed ev with
    | Some (m', p) =>
        String.eqb m' m &&
        match first_match p alerts with Some j => Nat.eqb j i | None => false end
    | None => false
    end) evs.

(** The events published on the bus in a trace. *)
Definition emitted (t : list Effect) : list AlertEvent :=
  omap (fun e => match e with EEmit ev => Some ev | _ => None end) t.

(** The current price of a market as [validateAlert] uses it: published, and
    truthy (not [0], not [NaN]). *)
Definition known_price (env : Env) (m : string) : option float :=
  match prices env with
  | Snapshot stats =>
      match stats m with
      | Some mp => if truthy_num mp then Some mp else None
      | None => None
      end
  | NeverPublishes => None
  end.

Definition publishes (env : Env) : bool :=
  match prices env with Snapshot _ => true | NeverPublishes => false end.

(** The error a POST ends with, if it fails: the network failed, the body is
    not JSON (or is [null]), or the payload carries a non-empty [error]. *)
Definition failure (o : FetchOutcome) : option JsError :=
  match o with
  | NetworkError e => Some e
  | Response _ (BodyNotJson e) => Some e
  | Response _ BodyNull => Some (read_of_null "error")
  | Response _ (BodyObject d) =>
      match error d with
      | Some msg => if truthy_str msg then Some (PlainError msg) else None
      | None => None
      end
  end.

(** What the registration client hands to its caller for each outcome of a
    POST: [{ error: message }] for a failure, the payload itself otherwise.
    The status of the response plays no part. *)
Definition as_data (o : FetchOutcome) : AlertResponse :=
  match failure o, o with
  | Some e, _ => error_response (e_message e)
  | None, Response _ (BodyObject d) => d
  | None, _ => error_response ""
  end.

(** The market and the price an operation submits to validation. *)
Definition proposed (op : Operation) (w : World) : string * float :=
  match op with
  | Create c _ _ => (market (heap w c), price (heap w c))
  | Move mv np _ _ => (market (heap w mv), np)
  | Remove r _ => (market (heap w r), price (heap w r))
  end.

(** The subscription is there and [validateAlert] answers [false]. *)
Definition rejected (env : Env) (m : string) (p : float) (w : World) : Prop :=
  exists sub w1,
    getPushSubscription env w = (Ok (Some sub), w1) /\
    fst (validateAlert env m p w1) = Ok false.

(** An operation reaches validation and is rejected there ([removeAlert]
    validates only an alert that has not triggered). *)
Definition validation_rejects (env : Env) (op : Operation) (w : World) : Prop :=
  match op with
  | Remove r _ => triggered (heap w r) = false
  | _ => True
  end /\ rejected env (proposed op w).1 (proposed op w).2 w.

(** [toggleAlert] has nothing to post: no subscription, or a rejected price. *)
Definition declined (env : Env) (m : string) (p : float) (w : World) : Prop :=
  fst (getPushSubscription env w) = Ok None \/ rejected env m p w.

(** The list [removeAlert] persists: the entries whose price is not [===] the
    removed one. *)
Definition without_price (p : float) (alerts : list MarketAlert) : list MarketAlert :=
  List.filter (fun x => negb (PrimFloat.eqb (price x) p)) alerts.

(** The effects of the operations, as opposed to the events of the gate
    protocol. *)
Definition plain (e : Effect) : Prop :=
  match e with
  | ESyncCalled _ | EGateFulfilled _ | EGetAlertsCalled _ | EGetAlertsReturned _ _ => False
  | _ => True
  end.

(** [w'] continues [w] without touching the gate: the field, the promises,
    the listeners and the suspended calls are the same, and the trace grew by
    plain effects only. *)
Definition frame (w w' : World) : Prop :=
  _promiseOfSync w' = _promiseOfSync w /\ gates w' = gates w /\
  listeners w' = listeners w /\ pending w' = pending w /\
  exists s, trace w' = trace w ++ s /\ Forall plain s.

Definition quiet {A} (c : M A) : Prop := forall w, frame w (snd (c w)).

(** What must have happened before a [getAlerts] call that read gate [og]
    hands over to the store. *)
Definition waited (og : option nat) (before : list Effect) : Prop :=
  match og with
  | Some g =>
      ESyncCalled g ∈ before /\ EGetAlertsCalled (Some g) ∈ before /\
      EGateFulfilled g ∈ before
  | None => forall g, ESyncCalled g ∉ before
  end.

(** Every return of a [getAlerts] call comes right after the query of the
    store for its market, and what had to happen had happened before that
    query. *)
Definition served_after_gate (t : list Effect) : Prop :=
  forall t1 og m t2, t = t1 ++ EGetAlertsReturned og m :: t2 ->
    exists t0, t1 = t0 ++ [EStoreGet m] /\ waited og t0.

(** The invariant of the runs: what the trace tells about fulfilled promises,
    about suspended calls and about the gate field, and that every call was
    served after its gate. *)
Definition gate_invariant (w : World) : Prop :=
  served_after_gate (trace w) /\
  (forall g, gates w !! g = Some GFulfilled -> EGateFulfilled g ∈ trace w) /\
  (forall g m, (g, m) ∈ pending w ->
     ESyncCalled g ∈ trace w /\ EGetAlertsCalled (Some g) ∈ trace w) /\
  match _promiseOfSync w with
  | Some g => ESyncCalled g ∈ trace w
  | None => forall g, ESyncCalled g ∉ trace w
  end.

Definition is_sync (a : Action) : bool :=
  match a with ASync _ => true | _ => false end.

(** ** More vocabulary: the store and the gate *)

(** The markets written to the store in a trace, in the order of the writes. *)
Definition saved (t : list Effect) : list string :=
  omap (fun e => match e with EStoreSave m _ => Some m | _ => None end) t.

(** The markets loaded from the store in a trace. *)
Definition loaded (t : list Effect) : list string :=
  omap (fun e => match e with EStoreGet m => Some m | _ => None end) t.

Definition is_fulfilled (st : GateState) : bool :=
  match st with GFulfilled => true | _ => false end.

(** How many of the promises have fulfilled. *)
Definition fulfilled (gs : list GateState) : nat :=
  length (List.filter is_fulfilled gs).

(** The market has alerts in the store. *)
Definition has_alerts (d : gmap string (list MarketAlert)) (m : string) : bool :=
  match stored d m with [] => false | _ :: _ => true end.

(** ** [getAlerts] as one computation, and [getPaneMarkets] *)

(** [getAlerts(market)] run to its end with nothing else happening while it
    waits: the call, and its continuation when the call was suspended.  With
    no promise in [_promiseOfSync], or a fulfilled one, the result is the
    store's answer; on a rejected promise the [await] throws; on a pending
    one the call stays suspended and never returns. *)
Definition getAlerts (m : string) : M (list MarketAlert) := fun w =>
  let w1 := getAlerts_call m w in
  match _promiseOfSync w with
  | None => (Ok (stored (db w) m), w1)
  | Some g =>
      let w2 := getAlerts_resume (length (pending w)) w1 in
      match gates w !! g with
      | Some GFulfilled => (Ok (stored (db w) m), w2)
      | Some (GRejected e) => (Throw e, w2)
      | _ => (Hang, w2)
      end
  end.

(** The part of the application state that [getPaneMarkets] reads: the
    markets of a pane ([store.state.panes.panes[paneId].markets], [None] when
    there is no such pane) and the [local] name of the listener of a market
    ([store.state.panes.marketsListeners[marketKey]], [None] when the market
    has none). *)
Record PanesState := mkPanes {
  pane_markets : string -> option (list string);
  listener_local : string -> option string
}.

(** The body of [for (const marketKey of markets)]: [market.local] is pushed
    unless [indexes.indexOf(market.local)] finds it. *)
Definition add_index (st : PanesState) (indexes : list string) (marketKey : string)
  : list string :=
  match listener_local st marketKey with
  | Some local => if existsb (String.eqb local) indexes then indexes else indexes ++ [local]
  | None => indexes
  end.

Definition pane_indexes (st : PanesState) (markets : list string) : list string :=
  fold_left (add_index st) markets [].

(** The accumulator of [indexes.reduce(async (acc, index) => ..., [])].  The
    callback is [async]: what it returns, and so what the next turn receives
    as [acc], is a promise.  Only the first turn sees the array. *)
Inductive Accumulator :=
| Items (alerts : list MarketAlert)            (* the array literal [] *)
| Later (outcome : Result (list MarketAlert)). (* a promise, by what it settles to *)

(** One turn: [alerts = await this.getAlerts(index)], then
    [Array.prototype.push.apply(acc, alerts)], then [return acc].  On the
    array, [push] appends and the promise of the turn fulfils with the
    array.  On a promise, [push] only writes index properties and [length]
    on the promise object, and returning the promise makes the promise of the
    turn follow it.  When [getAlerts] throws, so does the turn. *)
Definition collect (acc : Accumulator) (index : string) (w : World) : Accumulator * World :=
  match getAlerts index w with
  | (Ok alerts, w1) =>
      (Later match acc with
             | Items items => Ok (items ++ alerts)
             | Later outcome => outcome
             end, w1)
  | (Throw e, w1) => (Later (Throw e), w1)
  | (Hang, w1) => (Later Hang, w1)
  end.

(** [getPaneMarkets(paneId)]: not an [async] method; it throws at once when
    the pane does not exist and otherwise returns what [reduce] returns. *)
Definition getPaneMarkets (st : PanesState) (paneId : string) : M Accumulator := fun w =>
  match pane_markets st paneId with
  | None => (Throw (read_of_undefined "markets"), w)
  | Some markets =>
      let r := fold_left (fun aw index => collect aw.1 index aw.2)
                 (pane_indexes st markets) (Items [], w) in
      (Ok r.1, r.2)
  end.

(** What [await] makes of the value of the [reduce]: the array itself, or
    what the promise settles to. *)
Definition awaited (acc : Accumulator) : Result (list MarketAlert) :=
  match acc with
  | Items alerts => Ok alerts
  | Later outcome => outcome
  end.

(** Nothing holds [getAlerts] back: there is no gate, or it has fulfilled. *)
Definition gate_open (w : World) : Prop :=
  match _promiseOfSync w with
  | None => True
  | Some g => gates w !! g = Some GFulfilled
  end.

(** [await getPaneMarkets(paneId)] *)
Definition awaited_result (r : Result Accumulator * World) : Result (list MarketAlert) :=
  match r.1 with
  | Ok acc => awaited acc
  | Throw e => Throw e
  | Hang => Hang
  end.
(** ** [urlBase64ToUint8Array] *)

(** A string is the sequence of its code units, each below 256 here (the
    strings of interest are base64 text; [atob] rejects anything else). *)

(** [c.repeat(n)] *)
Fixpoint repeat_char (c : ascii) (n : nat) : string :=
  match n with
  | 0 => EmptyString
  | S n' => String c (repeat_char c n')
  end.

(** ['='.repeat((4 - (base64String.length % 4)) % 4)] *)
Definition padding (base64String : string) : string :=
  repeat_char "="%char ((4 - String.length base64String mod 4) mod 4).

(** [s.replace(/c/g, d)] for a single character [c] *)
Fixpoint replace_all (c d : ascii) (s : string) : string :=
  match s with
  | EmptyString => EmptyString
  | String x rest => String (if Ascii.eqb x c then d else x) (replace_all c d rest)
  end.

(** [(base64String + padding).replace(/-/g, '+').replace(/_/g, '/')] *)
Definition base64_of (base64String : string) : string :=
  replace_all "_"%char "/"%char
    (replace_all "-"%char "+"%char (base64String +:+ padding base64String)).

(** [window.atob] is the platform's forgiving-base64 decode (WHATWG Infra):
    ASCII whitespace is dropped; when the length is then a multiple of 4, one
    or two trailing ['='] are dropped; a length of 1 modulo 4, or a character
    outside the alphabet of RFC 4648 table 1, is an [InvalidCharacterError];
    every character gives six bits, every 24 bits three bytes, and of 12 or 18
    left-over bits the last 4 or 2 are discarded. *)
Definition ascii_whitespace (c : ascii) : bool :=
  let n := N_of_ascii c in
  ((n =? 9) || (n =? 10) || (n =? 12) || (n =? 13) || (n =? 32))%N.

Definition base64_value (c : ascii) : option N :=
  let n := N_of_ascii c in
  if ((65 <=? n) && (n <=? 90))%N then Some (n - 65)%N
  else if ((97 <=? n) && (n <=? 122))%N then Some (n - 71)%N
  else if ((48 <=? n) && (n <=? 57))%N then Some (n + 4)%N
  else if (n =? 43)%N then Some 62%N
  else if (n =? 47)%N then Some 63%N
  else None.

Definition without_trailing_equals (l : list ascii) : list ascii :=
  match rev l with
  | c1 :: r1 =>
      if Ascii.eqb c1 "="%char then
        match r1 with
        | c2 :: r2 => if Ascii.eqb c2 "="%char then rev r2 else rev r1
        | [] => rev r1
        end
      else l
  | [] => l
  end.

Fixpoint decode_groups (values : list N) : list N :=
  match values with
  | a :: b :: c :: d :: rest =>
      let n := (((a * 64 + b) * 64 + c) * 64 + d)%N in
      (n / 65536)%N :: ((n / 256) mod 256)%N :: (n mod 256)%N :: decode_groups rest
  | [a; b; c] =>
      let n := (((a * 64 + b) * 64 + c) / 4)%N in
      [(n / 256)%N; (n mod 256)%N]
  | [a; b] => [((a * 64 + b) / 16)%N]
  | _ => []
  end.

Definition InvalidCharacterError : JsError :=
  mkError "InvalidCharacterError" "The string to be decoded is not correctly encoded.".

Definition atob (data : string) : Result string :=
  let l := List.filter (fun c => negb (ascii_whitespace c)) (String.list_ascii_of_string data) in
  let l := if Nat.eqb (length l mod 4) 0 then without_trailing_equals l else l in
  if Nat.eqb (length l mod 4) 1 then Throw InvalidCharacterError
  else match mapM base64_value l with
       | Some values => Ok (String.string_of_list_ascii (map ascii_of_N (decode_groups values)))
       | None => Throw InvalidCharacterError
       end.

(** The bytes of the [Uint8Array] that is returned: the code units of
    [rawData], one by one. *)
Definition urlBase64ToUint8Array (base64String : string) : Result (list N) :=
  match atob (base64_of base64String) with
  | Ok rawData => Ok (map N_of_ascii (String.list_ascii_of_string rawData))
  | Throw e => Throw e
  | Hang => Hang
  end.

(** The URL-safe base64 text of a byte sequence, without padding (RFC 4648,
    section 5): the form of a VAPID public key. *)
Definition url_digit (v : N) : ascii :=
  if (v <? 26)%N then ascii_of_N (v + 65)
  else if (v <? 52)%N then ascii_of_N (v + 71)
  else if (v <? 62)%N then ascii_of_N (v - 4)
  else if (v =? 62)%N then "-"%char
  else "_"%char.

Fixpoint sextets (bytes : list N) : list N :=
  match bytes with
  | a :: b :: c :: rest =>
      let n := ((a * 256 + b) * 256 + c)%N in
      (n / 262144)%N :: ((n / 4096) mod 64)%N :: ((n / 64) mod 64)%N :: (n mod 64)%N
        :: sextets rest
  | [a; b] =>
      let n := ((a * 256 + b) * 4)%N in
      [(n / 4096)%N; ((n / 64) mod 64)%N; (n mod 64)%N]
  | [a] => [(a * 16 / 64)%N; (a * 16 mod 64)%N]
  | [] => []
  end.

Definition base64url (bytes : list N) : string :=
  String.string_of_list_ascii (map url_digit (sextets bytes)).

(** What the two replacements make of one character. *)
Definition standard (c : ascii) : ascii :=
  let c1 := if Ascii.eqb c "-"%char then "+"%char else c in
  if Ascii.eqb c1 "_"%char then "/"%char else c1.


(** ** Concrete inputs *)

Module Sample.

Definition eth : MarketAlert := mkAlert 2000%float "ETH-USD" 1700000000000%float false false.
Definition fired : MarketAlert := mkAlert 100%float "X" 1700000000000%float true true.

(** Record 0 is the ETH-USD alert, every other record the triggered one on X. *)
Definition records : loc -> MarketAlert :=
  fun l => match l with 0 => eth | _ => fired end.

Definition sub : PushSubscription := mkSub "https://push.example/send/abc".

Definition offline (_ : RequestBody) : FetchOutcome :=
  NetworkError (TypeError "Failed to fetch").

Definition accepting (_ : RequestBody) : FetchOutcome :=
  Response 200 (BodyObject (mkResponse None None None None)).

(** No push key; the feed has no price for any market. *)
Definition no_key : Env :=
  mkEnv None NoServiceWorker "https://aggr.example/#pane" (Snapshot (fun _ => None)) offline.

(** Push key configured, subscription granted, ETH-USD at 2100, backend fine. *)
Definition granted : Env :=
  mkEnv (Some "BPk") (Subscribed sub) "https://aggr.example/#pane"
    (Snapshot (fun _ => Some 2100%float)) accepting.

(** As [granted], with a backend that answers every request with status 500
    and an empty JSON object. *)
Definition internal_error (_ : RequestBody) : FetchOutcome :=
  Response 500 (BodyObject (mkResponse None None None None)).

Definition failing : Env :=
  mkEnv (Some "BPk") (Subscribed sub) "https://aggr.example/#pane"
    (Snapshot (fun _ => Some 2100%float)) internal_error.

(** As [granted], with the market at 50000: an alert at 2000 is too far. *)
Definition far : Env :=
  mkEnv (Some "BPk") (Subscribed sub) "https://aggr.example/#pane"
    (Snapshot (fun _ => Some 50000%float)) accepting.

(** Push key configured, the browser refuses the permission. *)
Definition denied : Env :=
  mkEnv (Some "BPk")
    (SubscribeFails (mkError "NotAllowedError" "Registration failed - permission denied"))
    "https://aggr.example/#pane" (Snapshot (fun _ => Some 2100%float)) accepting.

(** As [granted], with the backend out of reach. *)
Definition unreachable : Env :=
  mkEnv (Some "BPk") (Subscribed sub) "https://aggr.example/#pane"
    (Snapshot (fun _ => Some 2100%float)) offline.

Definition fresh : World := boot records ∅.

(** Market X holds three alerts, at 90, 100 and 100 again. *)
Definition at_90 : MarketAlert := mkAlert 90%float "X" 1700000000000%float true false.
Definition at_100 : MarketAlert := mkAlert 100%float "X" 1700000000000%float true false.

Definition stocked : World := boot records {[ "X" := [at_90; at_100; at_100] ]}.

(** A trigger at 100 on X, one whose price is a string, one without market. *)
Definition triggers : list TriggerEvent :=
  [mkTrigger (VNum 100%float) (Some "X") (VStr "up");
   mkTrigger (VStr "100") (Some "X") VUndefined;
   mkTrigger (VNum 90%float) None VUndefined].

(** A trigger whose market is the name of a member of Object.prototype. *)
Definition odd_trigger : TriggerEvent :=
  mkTrigger (VNum 100%float) (Some "constructor") VUndefined.

(** The pane "chart" shows X, ETH-USD and X again, each listened to under its
    own name; there is no other pane. *)
Definition panes : PanesState :=
  mkPanes (fun paneId => if String.eqb paneId "chart" then Some ["X"; "ETH-USD"; "X"] else None)
          (fun marketKey => Some marketKey).

(** The store holds the three alerts of X and one of ETH-USD. *)
Definition both : World := boot records {[ "X" := [at_90; at_100; at_100]; "ETH-USD" := [eth] ]}.

End Sample.

(** * Theorems *)

(** ** The validator *)

Section Validator.
Context (env : Env) (m : string) (p : float).

(** The verdict does not depend on the state of the service. *)
Lemma validateAlert_verdict (w w' : World) :
  fst (validateAlert env m p w) = fst (validateAlert env m p w').
Proof.
  unfold validateAlert, getPrice, bind.
  destruct (prices env) as [|stats]; [reflexivity|]. simpl.
  destruct (stats m) as [mp|]; [|reflexivity].
  destruct (truthy_num mp); [|reflexivity].
  destruct (too_far p mp); reflexivity.
Qed.

(** An accepted price leaves no trace. *)
Lemma validateAlert_accepts (w : World) :
  fst (validateAlert env m p w) = Ok true -> validateAlert env m p w = (Ok true, w).
Proof.
  unfold validateAlert, getPrice, bind.
  destruct (prices env) as [|stats]; [discriminate|]. simpl.
  destruct (stats m) as [mp|]; [|reflexivity].
  destruct (truthy_num mp); [|reflexivity].
  destruct (too_far p mp); [discriminate|reflexivity].
Qed.

(** A rejected price is logged on the console and nothing else happens. *)
Lemma validateAlert_rejects (w : World) :
  fst (validateAlert env m p w) = Ok false ->
  exists mp, validateAlert env m p w
             = (Ok false, with_trace (trace w ++ [EConsoleError p mp]) w).
Proof.
  unfold validateAlert, getPrice, bind.
  destruct (prices env) as [|stats]; [discriminate|]. simpl.
  destruct (stats m) as [mp|]; [|discriminate].
  destruct (truthy_num mp); [|discriminate].
  destruct (too_far p mp); [|discriminate].
  intros _. exists mp. reflexivity.
Qed.
End Validator.

(** C3 (as amended).  With a known current price (published, and neither
    [0] nor [NaN]) [validateAlert] rejects [-5] and every other negative
    price.  With no known current price it rejects nothing: when the feed
    publishes a snapshot it accepts every price, [-5] included, and while the
    feed publishes nothing it never returns. *)
Theorem validateAlert_negative_price (env : Env) (m : string) (w : World) :
  (forall mp, known_price env m = Some mp ->
     fst (validateAlert env m (-5)%float w) = Ok false /\
     forall p, PrimFloat.ltb p 0%float = true ->
               fst (validateAlert env m p w) = Ok false) /\
  (known_price env m = None ->
     forall p, fst (validateAlert env m p w) = if publishes env then Ok true else Hang).
Proof.
  unfold publishes, known_price, validateAlert, getPrice, bind, too_far.
  destruct (prices env) as [|stats]; simpl.
  - split; [discriminate|]. reflexivity.
  - destruct (stats m) as [mp|].
    + destruct (truthy_num mp).
      * split; [|discriminate]. intros mp' _. split.
        -- reflexivity.
        -- intros p Hneg. rewrite Hneg. reflexivity.
      * split; [discriminate|]. reflexivity.
    + split; [discriminate|]. reflexivity.
Qed.

Lemma validateAlert_negative_price_witness :
  known_price Sample.granted "ETH-USD" = Some 2100%float /\
  fst (validateAlert Sample.granted "ETH-USD" (-5)%float Sample.fresh) = Ok false.
Proof.
  split; [reflexivity|].
  exact (proj1 (proj1 (validateAlert_negative_price Sample.granted "ETH-USD"
                         Sample.fresh) 2100%float eq_refl)).
Defined.

(** While the feed publishes nothing, the validator never returns, whatever
    the price. *)
Example validateAlert_waits_for_the_feed :
  let env := mkEnv None NoServiceWorker "" NeverPublishes Sample.offline in
  known_price env "BTC-USD" = None /\
  fst (validateAlert env "BTC-USD" (-5)%float Sample.fresh) = Hang.
Proof. split; reflexivity. Qed.

(** The scenario of the spec: BTC-USD at 50000; 100001 is rejected, 30000 is
    accepted, and so is the current price itself. *)
Example validate_BTC_USD :
  let env := mkEnv None NoServiceWorker "" (Snapshot (fun _ => Some 50000%float))
               Sample.offline in
  fst (validateAlert env "BTC-USD" 100001%float Sample.fresh) = Ok false /\
  fst (validateAlert env "BTC-USD" 30000%float Sample.fresh) = Ok true /\
  fst (validateAlert env "BTC-USD" 50000%float Sample.fresh) = Ok true /\
  fst (validateAlert env "BTC-USD" 24999%float Sample.fresh) = Ok false.
Proof. repeat split; reflexivity. Qed.

(** C3 (as stated) fails: with no price for the market, [-5] is accepted. *)
Lemma validateAlert_accepts_minus_five_unpriced :
  known_price Sample.no_key "BTC-USD" = None /\
  fst (validateAlert Sample.no_key "BTC-USD" (-5)%float Sample.fresh) = Ok true.
Proof. split; reflexivity. Qed.

(** ** The monad *)

Lemma bind_ok {A B} (c : M A) (k : A -> M B) (w w1 : World) (a : A) :
  c w = (Ok a, w1) -> bind c k w = k a w1.
Proof. unfold bind. intros ->. reflexivity. Qed.

Lemma bind_throw {A B} (c : M A) (k : A -> M B) (w w1 : World) (e : JsError) :
  c w = (Throw e, w1) -> bind c k w = (Throw e, w1).
Proof. unfold bind. intros ->. reflexivity. Qed.

Lemma posts_app (t1 t2 : list Effect) : posts (t1 ++ t2) = posts t1 ++ posts t2.
Proof. apply omap_app. Qed.

Lemma emitted_app (t1 t2 : list Effect) : emitted (t1 ++ t2) = emitted t1 ++ emitted t2.
Proof. apply omap_app. Qed.

Lemma notices_app (t1 t2 : list Effect) : notices (t1 ++ t2) = notices t1 ++ notices t2.
Proof. apply omap_app. Qed.

(** ** The push channel *)

Section PushChannel.
Context (env : Env) (w : World).

Lemma getPushSubscription_no_key :
  truthy_ostr (publicVapidKey env) = false ->
  getPushSubscription env w = (Ok None, w).
Proof. unfold getPushSubscription. intros ->. reflexivity. Qed.

Lemma getPushSubscription_none :
  fst (getPushSubscription env w) = Ok None ->
  getPushSubscription env w = (Ok None, w).
Proof.
  unfold getPushSubscription.
  destruct (truthy_ostr (publicVapidKey env)); simpl; [|reflexivity].
  destruct (pushSubscription w); [discriminate|].
  destruct (platform env); simpl; (discriminate || reflexivity).
Qed.

(** Acquiring the subscription touches neither the records nor the store,
    and posts nothing. *)
Lemma getPushSubscription_some (sub : PushSubscription) (w1 : World) :
  getPushSubscription env w = (Ok (Some sub), w1) ->
  heap w1 = heap w /\ db w1 = db w /\
  posts (trace w1) = posts (trace w) /\
  emitted (trace w1) = emitted (trace w) /\
  notices (trace w1) = notices (trace w).
Proof.
  unfold getPushSubscription.
  destruct (truthy_ostr (publicVapidKey env)); simpl; [|discriminate].
  destruct (pushSubscription w).
  - intros [= _ <-]. repeat split.
  - destruct (platform env); try discriminate.
    intros [= _ <-]. simpl.
    rewrite posts_app, emitted_app, notices_app. simpl.
    rewrite !app_nil_r. repeat split.
Qed.
End PushChannel.

(** ** Removing an alert *)

(** C7.  Removing an alert that has triggered: no POST is made, the remove
    event is emitted, and when a list is supplied, the list without the
    entries at the removed price is what is persisted. *)
Theorem removeAlert_of_triggered (env : Env) (r : loc) (ls : option (list loc)) (w : World) :
  triggered (heap w r) = true ->
  let a := heap w r in
  let w' := snd (removeAlert env r ls w) in
  fst (removeAlert env r ls w) = Ok tt /\
  posts (trace w') = posts (trace w) /\
  trace w' = trace w ++ EEmit (EvRemove (price a) (market a)) ::
               match ls with
               | Some l => [EStoreSave (market a) (without_price (price a) (map (heap w) l))]
               | None => []
               end /\
  db w' = match ls with
          | Some l => <[market a := without_price (price a) (map (heap w) l)]> (db w)
          | None => db w
          end /\
  heap w' = heap w.
Proof.
  intros Htrig a w'. subst a w'.
  unfold removeAlert, bind, read, emit, log, deref, store_saveAlerts, ret.
  rewrite Htrig. simpl.
  destruct ls as [l|]; simpl.
  - rewrite !posts_app. simpl. rewrite !app_nil_r, <- app_assoc.
    repeat split.
  - rewrite posts_app. simpl. rewrite app_nil_r. repeat split.
Qed.

Lemma removeAlert_of_triggered_witness :
  triggered (heap Sample.fresh 1) = true /\
  db (snd (removeAlert Sample.granted 1 (Some [1; 0]) Sample.fresh)) !! "X"
    = Some [Sample.eth].
Proof.
  split; [reflexivity|].
  destruct (removeAlert_of_triggered Sample.granted 1 (Some [1; 0]) Sample.fresh eq_refl)
    as (_ & _ & _ & Hdb & _).
  rewrite Hdb. reflexivity.
Defined.

(** ** Nothing to post: no subscription, or a rejected price *)

Section Declined.
Context (env : Env) (m : string) (p : float) (w : World).
Hypothesis Hdeclined : declined env m p w.

(** [toggleAlert] resolves to [undefined]; the records, the store, the
    bus, the notices and the network are as before. *)
Lemma toggleAlert_declined (currentPrice : JsVal) (unsub status : option bool) :
  exists w1,
    toggleAlert env m p currentPrice unsub status w = (Ok None, w1) /\
    heap w1 = heap w /\ db w1 = db w /\ _promiseOfSync w1 = _promiseOfSync w /\
    posts (trace w1) = posts (trace w) /\
    emitted (trace w1) = emitted (trace w) /\
    notices (trace w1) = notices (trace w).
Proof.
  destruct Hdeclined as [Hnone | (sub & w1 & Hsub & Hrej)].
  - exists w. apply getPushSubscription_none in Hnone.
    unfold toggleAlert. rewrite (bind_ok _ _ _ _ _ Hnone). repeat split.
  - destruct (validateAlert_rejects _ _ _ _ Hrej) as [mp Hval].
    eexists. unfold toggleAlert.
    rewrite (bind_ok _ _ _ _ _ Hsub), (bind_ok _ _ _ _ _ Hval). simpl.
    split; [reflexivity|]. simpl.
    destruct (getPushSubscription_some _ _ _ _ Hsub) as (Hh & Hd & Hp & He & Hn).
    assert (_promiseOfSync w1 = _promiseOfSync w) as Hg.
    { revert Hsub. unfold getPushSubscription.
      destruct (truthy_ostr (publicVapidKey env)); [|discriminate].
      destruct (pushSubscription w); [intros [= _ <-]; reflexivity|].
      destruct (platform env); try discriminate. intros [= _ <-]. reflexivity. }
    rewrite posts_app, emitted_app, notices_app. simpl. rewrite !app_nil_r.
    repeat split; assumption.
Qed.

Lemma subscribe_declined (currentPrice : option float) :
  exists w1,
    subscribe env m p currentPrice w = (Throw (read_of_undefined "error"), w1) /\
    heap w1 = heap w /\ db w1 = db w /\ _promiseOfSync w1 = _promiseOfSync w /\
    posts (trace w1) = posts (trace w) /\
    emitted (trace w1) = emitted (trace w) /\
    notices (trace w1) = notices (trace w).
Proof.
  destruct (toggleAlert_declined (optional_number currentPrice) None None)
    as (w1 & Htoggle & Hrest).
  exists w1. unfold subscribe. rewrite (bind_ok _ _ _ _ _ Htoggle).
  split; [reflexivity | exact Hrest].
Qed.

Lemma unsubscribe_declined :
  exists w1,
    unsubscribe env m p w = (Throw (read_of_undefined "alert"), w1) /\
    heap w1 = heap w /\ db w1 = db w /\ _promiseOfSync w1 = _promiseOfSync w /\
    posts (trace w1) = posts (trace w) /\
    emitted (trace w1) = emitted (trace w) /\
    notices (trace w1) = notices (trace w).
Proof.
  destruct (toggleAlert_declined VNull (Some true) None) as (w1 & Htoggle & Hrest).
  exists w1. unfold unsubscribe. rewrite (bind_ok _ _ _ _ _ Htoggle).
  split; [reflexivity | exact Hrest].
Qed.
End Declined.

(** What [createAlert] does when [toggleAlert] has nothing to post. *)
Lemma createAlert_declined (env : Env) (c : loc) (ls : list loc)
    (currentPrice : option float) (w : World) :
  declined env (market (heap w c)) (price (heap w c)) w ->
  let a := heap w c in
  let w' := snd (createAlert env c ls currentPrice w) in
  fst (createAlert env c ls currentPrice w) = Ok (ls ++ [c]) /\
  heap w' = heap w /\
  db w' = <[market a := map (heap w) (ls ++ [c])]> (db w) /\
  posts (trace w') = posts (trace w) /\
  emitted (trace w') = emitted (trace w) ++ [EvAdd (price a) (market a) (timestamp a)] /\
  notices (trace w')
    = notices (trace w) ++ [NRegistrationFailure (e_message (read_of_undefined "error"))].
Proof.
  intros Hdecl a w'. subst a w'.
  destruct (subscribe_declined _ _ _ _ Hdecl currentPrice)
    as (w1 & Hsub & Hh & Hd & _ & Hp & He & Hn).
  destruct (createAlert env c ls currentPrice w) as [res w'] eqn:Heq.
  revert Heq. unfold createAlert, bind, try_catch, read. rewrite Hsub.
  unfold showNotice, log, deref, store_saveAlerts, emit, log, ret.
  intros [= <- <-]. simpl.
  rewrite !posts_app, !emitted_app, !notices_app. simpl.
  rewrite !app_nil_r, Hh, Hd, Hp, He, Hn. repeat split.
Qed.

(** What [removeAlert] does to an alert that has not triggered when
    [toggleAlert] has nothing to post. *)
Lemma removeAlert_declined (env : Env) (r : loc) (ls : option (list loc)) (w : World) :
  triggered (heap w r) = false ->
  declined env (market (heap w r)) (price (heap w r)) w ->
  let a := heap w r in
  let w' := snd (removeAlert env r ls w) in
  fst (removeAlert env r ls w) = Ok tt /\
  heap w' = heap w /\
  db w' = match ls with
          | Some l => <[market a := without_price (price a) (map (heap w) l)]> (db w)
          | None => db w
          end /\
  posts (trace w') = posts (trace w) /\
  emitted (trace w') = emitted (trace w) ++ [EvRemove (price a) (market a)].
Proof.
  intros Htrig Hdecl a w'. subst a w'.
  destruct (unsubscribe_declined _ _ _ _ Hdecl) as (w1 & Hun & Hh & Hd & _ & Hp & He & Hn).
  destruct (removeAlert env r ls w) as [res w'] eqn:Heq.
  revert Heq. unfold removeAlert, bind, try_catch, read. rewrite Htrig.
  cbn [negb]. cbv beta iota. rewrite Hun, Hh.
  destruct (active (heap w r)); destruct ls as [l|];
    unfold showNotice, emit, log, deref, store_saveAlerts, ret;
    intros [= <- <-]; simpl;
    rewrite ?posts_app, ?emitted_app; simpl;
    rewrite ?app_nil_r, ?Hh, ?Hd, ?Hp, ?He; repeat split.
Qed.

(** What [moveAlert] does when the new price is rejected: nothing but the
    console line of the validator. *)
Lemma moveAlert_rejected (env : Env) (mv : loc) (np cp : float) (ls : list loc) (w : World) :
  rejected env (market (heap w mv)) np w ->
  let w' := snd (moveAlert env mv np cp ls w) in
  fst (moveAlert env mv np cp ls w) = Ok tt /\
  heap w' = heap w /\ db w' = db w /\
  posts (trace w') = posts (trace w) /\
  emitted (trace w') = emitted (trace w).
Proof.
  intros (sub & w1 & Hsub & Hrej) w'. subst w'.
  destruct (getPushSubscription_some _ _ _ _ Hsub) as (Hh & Hd & Hp & He & Hn).
  destruct (validateAlert_rejects _ _ _ _ Hrej) as [mp Hval].
  destruct (moveAlert env mv np cp ls w) as [res w'] eqn:Heq.
  revert Heq. unfold moveAlert. rewrite (bind_ok _ _ _ _ _ Hsub).
  unfold bind at 1. unfold read at 1. rewrite Hh.
  rewrite (bind_ok _ _ _ _ _ Hval). simpl. intros [= <- <-]. simpl.
  rewrite posts_app, emitted_app. simpl. rewrite !app_nil_r. repeat split; assumption.
Qed.

(** ** Validation rejection in the facade *)

(** C4 (as amended).  When validation rejects the proposed price, no
    operation posts to the backend and none touches the alert record.
    [moveAlert] stops there: it emits nothing and leaves the store alone.
    [createAlert] has pushed the alert onto the list, persists that list and
    emits the add event; [removeAlert] emits the remove event and, given a
    list, persists it without the entries at the removed price. *)
Theorem rejected_operation (env : Env) (op : Operation) (w : World) :
  validation_rejects env op w ->
  let w' := snd (perform env op w) in
  fst (perform env op w) = Ok tt /\
  posts (trace w') = posts (trace w) /\
  heap w' = heap w /\
  match op with
  | Create c ls _ =>
      let a := heap w c in
      db w' = <[market a := map (heap w) (ls ++ [c])]> (db w) /\
      emitted (trace w') = emitted (trace w) ++ [EvAdd (price a) (market a) (timestamp a)]
  | Move _ _ _ _ =>
      db w' = db w /\ emitted (trace w') = emitted (trace w)
  | Remove r ls =>
      let a := heap w r in
      db w' = match ls with
              | Some l => <[market a := without_price (price a) (map (heap w) l)]> (db w)
              | None => db w
              end /\
      emitted (trace w') = emitted (trace w) ++ [EvRemove (price a) (market a)]
  end.
Proof.
  intros [Hop Hrej] w'. subst w'.
  destruct op as [c ls cp | mv np cp ls | r ls]; simpl in Hrej.
  - destruct (createAlert_declined env c ls cp w (or_intror Hrej))
      as (Hres & Hh & Hd & Hp & He & _).
    unfold perform, bind.
    destruct (createAlert env c ls cp w) as [res w1]. simpl in *. subst res.
    simpl. auto.
  - destruct (moveAlert_rejected env mv np cp ls w Hrej) as (Hres & Hh & Hd & Hp & He).
    simpl. auto.
  - destruct (removeAlert_declined env r ls w Hop (or_intror Hrej))
      as (Hres & Hh & Hd & Hp & He).
    simpl. auto.
Qed.

Lemma rejected_operation_witness :
  validation_rejects Sample.far (Move 0 2000%float 50000%float [0]) Sample.fresh /\
  db (snd (perform Sample.far (Move 0 2000%float 50000%float [0]) Sample.fresh))
    = db Sample.fresh.
Proof.
  assert (validation_rejects Sample.far (Move 0 2000%float 50000%float [0]) Sample.fresh)
    as Hrej.
  { split; [exact I|]. eexists. eexists. split; reflexivity. }
  split; [exact Hrej|].
  exact (proj1 (proj2 (proj2 (proj2 (rejected_operation _ _ _ Hrej))))).
Defined.

(** C4 (as stated) fails for [createAlert]: the price is rejected, and the
    store, which held nothing for the market, now holds the new alert. *)
Lemma createAlert_persists_rejected_alert :
  fst (validateAlert Sample.far "ETH-USD" 2000%float Sample.fresh) = Ok false /\
  db Sample.fresh !! "ETH-USD" = None /\
  db (snd (perform Sample.far (Create 0 [] None) Sample.fresh)) !! "ETH-USD"
    = Some [Sample.eth].
Proof. repeat split; reflexivity. Qed.

(** ** Creating an alert without a push key *)

(** C5.  With no push key, [createAlert] makes no request (neither to the
    platform nor to the backend), leaves [active] as it was and persists the
    list with the new entry; but the missing key is not silent: the
    registration-failure notice is shown, with the message of the TypeError
    raised in [subscribe]. *)
Theorem createAlert_without_push_key (env : Env) (c : loc) (ls : list loc)
    (currentPrice : option float) (w : World) :
  truthy_ostr (publicVapidKey env) = false ->
  let a := heap w c in
  let w' := snd (createAlert env c ls currentPrice w) in
  fst (createAlert env c ls currentPrice w) = Ok (ls ++ [c]) /\
  heap w' = heap w /\
  db w' = <[market a := map (heap w) (ls ++ [c])]> (db w) /\
  trace w' = trace w ++
    [ENotice (NRegistrationFailure "Cannot read properties of undefined (reading 'error')");
     EStoreSave (market a) (map (heap w) (ls ++ [c]));
     EEmit (EvAdd (price a) (market a) (timestamp a))].
Proof.
  intros Hkey a w'. subst a w'.
  destruct (createAlert env c ls currentPrice w) as [res w'] eqn:Heq.
  revert Heq.
  unfold createAlert, subscribe, toggleAlert, bind, try_catch, read.
  rewrite (getPushSubscription_no_key env w Hkey).
  unfold ret, throw, showNotice, log, deref, store_saveAlerts, emit, log.
  intros [= <- <-]. simpl. rewrite <- !app_assoc. repeat split.
Qed.

Lemma createAlert_without_push_key_witness :
  truthy_ostr (publicVapidKey Sample.no_key) = false /\
  notices (trace (snd (createAlert Sample.no_key 0 [] None Sample.fresh)))
    = [NRegistrationFailure "Cannot read properties of undefined (reading 'error')"].
Proof.
  split; [reflexivity|].
  destruct (createAlert_without_push_key Sample.no_key 0 [] None Sample.fresh eq_refl)
    as (_ & _ & _ & Htrace).
  rewrite Htrace. reflexivity.
Defined.

(** ** [toggleAlert] resolving to [undefined] *)

(** C10.  With no subscription to use, or with a rejected price,
    [toggleAlert] resolves to [undefined]; [subscribe] then throws the
    TypeError of reading [error] on it; [createAlert] catches it, shows the
    registration-failure notice and completes. *)
Theorem undefined_response_becomes_notice (env : Env) (c : loc) (ls : list loc)
    (currentPrice : option float) (w : World) :
  let a := heap w c in
  declined env (market a) (price a) w ->
  (forall cp unsub status,
     fst (toggleAlert env (market a) (price a) cp unsub status w) = Ok None) /\
  fst (subscribe env (market a) (price a) currentPrice w)
    = Throw (read_of_undefined "error") /\
  fst (createAlert env c ls currentPrice w) = Ok (ls ++ [c]) /\
  notices (trace (snd (createAlert env c ls currentPrice w)))
    = notices (trace w)
      ++ [NRegistrationFailure "Cannot read properties of undefined (reading 'error')"].
Proof.
  intros a Hdecl. subst a. repeat split.
  - intros cp unsub status.
    destruct (toggleAlert_declined _ _ _ _ Hdecl cp unsub status) as (w1 & -> & _).
    reflexivity.
  - destruct (subscribe_declined _ _ _ _ Hdecl currentPrice) as (w1 & -> & _).
    reflexivity.
  - apply (createAlert_declined env c ls currentPrice w Hdecl).
  - apply (createAlert_declined env c ls currentPrice w Hdecl).
Qed.

Lemma undefined_response_becomes_notice_witness :
  declined Sample.far "ETH-USD" 2000%float Sample.fresh /\
  fst (subscribe Sample.far "ETH-USD" 2000%float None Sample.fresh)
    = Throw (read_of_undefined "error").
Proof.
  assert (declined Sample.far "ETH-USD" 2000%float Sample.fresh) as Hdecl.
  { right. eexists. eexists. split; reflexivity. }
  split; [exact Hdecl|].
  exact (proj1 (proj2 (undefined_response_becomes_notice Sample.far 0 [] None
                         Sample.fresh Hdecl))).
Defined.

(** ** The registration client *)

Section Posted.
Context (env : Env) (w w1 : World) (sub : PushSubscription).
Hypothesis Hsub : getPushSubscription env w = (Ok (Some sub), w1).

(** The chain after [fetch] in [toggleAlert]: whatever the network does,
    the caller gets data. *)
Lemma toggleAlert_posted (m : string) (p : float) (cp : JsVal) (unsub status : option bool) :
  fst (validateAlert env m p w1) = Ok true ->
  let body := mkBody sub (strip_hash (href env)) m p cp unsub status None in
  fst (toggleAlert env m p cp unsub status w) = Ok (Some (as_data (network env body))) /\
  posts (trace (snd (toggleAlert env m p cp unsub status w))) = posts (trace w) ++ [body].
Proof.
  intros Hval body. apply validateAlert_accepts in Hval.
  destruct (getPushSubscription_some _ _ _ _ Hsub) as (_ & _ & Hp & _).
  destruct (toggleAlert env m p cp unsub status w) as [res w'] eqn:Heq.
  revert Heq. unfold toggleAlert.
  rewrite (bind_ok _ _ _ _ _ Hsub), (bind_ok _ _ _ _ _ Hval). cbn [negb].
  unfold try_catch, post, parsed, bind, log, ret, throw, handleFetchError, log, as_data.
  fold body. cbn [failure].
  destruct (network env body) as [e | st [e | | d]]; cbn.
  1-3: intros [= <- <-]; cbn; rewrite !posts_app, Hp; cbn;
       rewrite ?app_nil_r; split; reflexivity.
  destruct (error d) as [msg|]; cbn.
  - destruct (truthy_str msg); intros [= <- <-]; cbn; rewrite !posts_app, Hp; cbn;
      rewrite ?app_nil_r; split; reflexivity.
  - intros [= <- <-]; cbn; rewrite !posts_app, Hp; cbn. split; reflexivity.
Qed.
End Posted.

(** C8 (as amended).  [toggleAlert] throws to its caller exactly when the
    acquisition of the push subscription throws.  With nothing to post it
    resolves to [undefined].  Once the request is posted, every outcome comes
    back as data: [{ error: message }] for a network failure, a body that is
    not JSON or a payload with a non-empty [error]; the payload itself
    otherwise, whatever the status of the response. *)
Theorem toggleAlert_boundary (env : Env) (m : string) (p : float) (cp : JsVal)
    (unsub status : option bool) (w : World) :
  (forall e, fst (toggleAlert env m p cp unsub status w) = Throw e <->
             fst (getPushSubscription env w) = Throw e) /\
  (declined env m p w -> fst (toggleAlert env m p cp unsub status w) = Ok None) /\
  (forall sub w1,
     getPushSubscription env w = (Ok (Some sub), w1) ->
     fst (validateAlert env m p w1) = Ok true ->
     fst (toggleAlert env m p cp unsub status w)
       = Ok (Some (as_data (network env
                      (mkBody sub (strip_hash (href env)) m p cp unsub status None))))).
Proof.
  split; [|split].
  - intros e.
    destruct (getPushSubscription env w) as [[[sub|]|e'|] w1] eqn:Hsub.
    + destruct (fst (validateAlert env m p w1)) as [[|]|e'|] eqn:Hval.
      * rewrite (proj1 (toggleAlert_posted env w w1 sub Hsub m p cp unsub status Hval)).
        split; discriminate.
      * destruct (toggleAlert_declined env m p w
                    (or_intror (ex_intro _ sub (ex_intro _ w1 (conj Hsub Hval))))
                    cp unsub status) as (w2 & -> & _).
        split; discriminate.
      * exfalso. revert Hval. unfold validateAlert, getPrice, bind.
        destruct (prices env) as [|stats]; [discriminate|]. simpl.
        destruct (stats m) as [mp|]; [|discriminate].
        destruct (truthy_num mp); [|discriminate].
        destruct (too_far p mp); discriminate.
      * unfold toggleAlert. rewrite (bind_ok _ _ _ _ _ Hsub).
        unfold bind. destruct (validateAlert env m p w1) as [r w2].
        simpl in Hval. subst r. simpl. split; discriminate.
    + unfold toggleAlert. rewrite (bind_ok _ _ _ _ _ Hsub). simpl. split; discriminate.
    + unfold toggleAlert. rewrite (bind_throw _ _ _ _ _ Hsub). simpl.
      split; intros [= ->]; reflexivity.
    + unfold toggleAlert, bind. rewrite Hsub. simpl. split; discriminate.
  - intros Hdecl.
    destruct (toggleAlert_declined env m p w Hdecl cp unsub status) as (w2 & -> & _).
    reflexivity.
  - intros sub w1 Hsub Hval.
    apply (toggleAlert_posted env w w1 sub Hsub m p cp unsub status Hval).
Qed.

(** C8 (as stated) fails: the browser refuses the push permission and
    [toggleAlert] rejects with that error. *)
Lemma toggleAlert_throws_permission_error :
  fst (toggleAlert Sample.denied "ETH-USD" 2000%float VUndefined None None Sample.fresh)
    = Throw (mkError "NotAllowedError" "Registration failed - permission denied").
Proof. reflexivity. Qed.

Lemma toggleAlert_boundary_witness :
  fst (toggleAlert Sample.unreachable "ETH-USD" 2000%float VUndefined None None Sample.fresh)
    = Ok (Some (error_response "Failed to fetch")).
Proof.
  exact (proj2 (proj2 (toggleAlert_boundary Sample.unreachable "ETH-USD" 2000%float
                         VUndefined None None Sample.fresh))
           Sample.sub _ eq_refl eq_refl).
Defined.

(** A response with status 500 and a payload without [error] is handed over
    as it is, with no error in it. *)
Example toggleAlert_ignores_status :
  as_data (Response 500 (BodyObject (mkResponse None None None None)))
    = mkResponse None None None None.
Proof. reflexivity. Qed.

(** ** Moving an alert *)

(** The chain after [fetch] in [moveAlert]: [true] when the request went
    through, [false] after [handleFetchError] otherwise. *)
Lemma registered_spec (o : FetchOutcome) (w : World) :
  fst (registered o w) = Ok (match failure o with None => true | Some _ => false end) /\
  heap (snd (registered o w)) = heap w /\
  db (snd (registered o w)) = db w /\
  trace (snd (registered o w))
    = trace w ++ match failure o with Some e => [EHandleFetchError e] | None => [] end.
Proof.
  unfold registered, try_catch, parsed, bind, throw, ret, handleFetchError, log.
  destruct o as [e | st [e | | d]]; cbn; try (repeat split; reflexivity).
  destruct (error d) as [msg|]; cbn.
  - destruct (truthy_str msg); cbn; rewrite ?app_nil_r; repeat split; reflexivity.
  - rewrite app_nil_r. repeat split; reflexivity.
Qed.

(** C6 (as amended).  A [moveAlert] that has its subscription and an
    accepted new price: the backend is asked once; the event with the old
    price and the new one is emitted while the record still is as it was;
    then the record gets [triggered = false], [price = newPrice] and
    [active] = whether the answer was a JSON object without a (non-empty)
    [error]; and the list, as it then is, is persisted.  The status of the
    response plays no part: a response of any status whose payload has no
    [error] makes the alert active; a network failure, a body that is not
    JSON and a payload with an [error] make it inactive. *)
Theorem moveAlert_moves (env : Env) (mv : loc) (newPrice currentPrice : float)
    (ls : list loc) (w w1 : World) (sub : PushSubscription) :
  getPushSubscription env w = (Ok (Some sub), w1) ->
  fst (validateAlert env (market (heap w mv)) newPrice w1) = Ok true ->
  let a := heap w mv in
  let body := mkBody sub (href env) (market a) (price a) (VNum currentPrice)
                None None (Some newPrice) in
  let ok := match failure (network env body) with None => true | Some _ => false end in
  let moved := mkAlert newPrice (market a) (timestamp a) ok false in
  let w' := snd (moveAlert env mv newPrice currentPrice ls w) in
  fst (moveAlert env mv newPrice currentPrice ls w) = Ok tt /\
  heap w' mv = moved /\
  (forall l, l <> mv -> heap w' l = heap w l) /\
  db w' = <[market a := map (heap w') ls]> (db w) /\
  trace w' =
    trace w1 ++ [EFetch body]
    ++ match failure (network env body) with
       | Some e => [EHandleFetchError e]
       | None => []
       end
    ++ [EEmit (EvMove (price a) (market a) newPrice);
        EAssign mv (set_triggered false a);
        EAssign mv (set_active ok (set_triggered false a));
        EAssign mv moved;
        EStoreSave (market a) (map (heap w') ls)] /\
  (forall status data,
     network env body = Response status (BodyObject data) ->
     active (heap w' mv) = negb (truthy_ostr (error data))) /\
  ((forall status data, network env body <> Response status (BodyObject data)) ->
     active (heap w' mv) = false).
Proof.
  intros Hsub Hval a body ok moved w'.
  enough (fst (moveAlert env mv newPrice currentPrice ls w) = Ok tt /\
          heap (snd (moveAlert env mv newPrice currentPrice ls w)) mv = moved /\
          (forall l, l <> mv ->
             heap (snd (moveAlert env mv newPrice currentPrice ls w)) l = heap w l) /\
          db (snd (moveAlert env mv newPrice currentPrice ls w))
            = <[market a := map (heap (snd (moveAlert env mv newPrice currentPrice ls w))) ls]>
                (db w) /\
          trace (snd (moveAlert env mv newPrice currentPrice ls w)) =
            trace w1 ++ [EFetch body]
            ++ match failure (network env body) with
               | Some e => [EHandleFetchError e]
               | None => []
               end
            ++ [EEmit (EvMove (price a) (market a) newPrice);
                EAssign mv (set_triggered false a);
                EAssign mv (set_active ok (set_triggered false a));
                EAssign mv moved;
                EStoreSave (market a)
                  (map (heap (snd (moveAlert env mv newPrice currentPrice ls w))) ls)])
    as (Hres & Hmoved & Hothers & Hdb & Htrace).
  { subst w'. repeat split; try assumption.
    - intros status data Hnet. rewrite Hmoved. subst moved ok. simpl. rewrite Hnet. simpl.
      destruct (error data) as [msg|]; [|reflexivity]. simpl.
      destruct (truthy_str msg); reflexivity.
    - intros Hnot. rewrite Hmoved. subst moved ok. simpl.
      destruct (network env body) as [e | st [e | | d]]; try reflexivity.
      exfalso. exact (Hnot st d eq_refl). }
  apply validateAlert_accepts in Hval.
  destruct (getPushSubscription_some _ _ _ _ Hsub) as (Hh & Hd & _).
  destruct (registered_spec (network env body)
              (with_trace (trace w1 ++ [EFetch body]) w1)) as (Hr & Hrh & Hrd & Hrt).
  destruct (moveAlert env mv newPrice currentPrice ls w) as [res w2] eqn:Heq.
  revert Heq. unfold moveAlert. rewrite (bind_ok _ _ _ _ _ Hsub).
  unfold bind at 1. unfold read at 1. rewrite Hh. fold a.
  rewrite (bind_ok _ _ _ _ _ Hval). cbn [negb].
  unfold bind at 1. unfold read at 1. rewrite Hh. fold a. fold body.
  unfold post. unfold bind at 1. unfold bind at 1. unfold log at 1. unfold ret at 1.
  unfold bind at 1.
  destruct (registered (network env body) (with_trace (trace w1 ++ [EFetch body]) w1))
    as [r w3].
  cbn [fst snd] in Hr, Hrh, Hrd, Hrt. cbn in Hrh, Hrd, Hrt. subst r. fold ok.
  unfold read, emit, assign, deref, store_saveAlerts, log, bind. cbn.
  rewrite Hrh, Hrd, Hrt, Hh, Hd, !Nat.eqb_refl. fold a.
  intros [= <- <-]. cbn. rewrite !Nat.eqb_refl.
  repeat split.
  - intros l Hl. apply Nat.eqb_neq in Hl. rewrite Hl. reflexivity.
  - rewrite <- !app_assoc. reflexivity.
Qed.

Lemma moveAlert_moves_witness :
  fst (validateAlert Sample.granted "ETH-USD" 2100%float Sample.fresh) = Ok true /\
  heap (snd (moveAlert Sample.granted 0 2100%float 2100%float [0] Sample.fresh)) 0
    = mkAlert 2100%float "ETH-USD" 1700000000000%float true false.
Proof.
  split; [reflexivity|].
  exact (proj1 (proj2 (moveAlert_moves Sample.granted 0 2100%float 2100%float [0]
                         Sample.fresh _ Sample.sub eq_refl eq_refl))).
Defined.

(** C6 (as stated) fails where it has [active] reflect the outcome of the
    registration: the backend answers with status 500 and a payload without
    [error], the registration has failed, and the moved alert is stored as
    active. *)
Lemma moveAlert_active_after_server_error :
  Sample.failing.(network)
    (mkBody Sample.sub "https://aggr.example/#pane" "ETH-USD" 2000%float (VNum 2100%float)
       None None (Some 2100%float))
    = Response 500 (BodyObject (mkResponse None None None None)) /\
  fst (moveAlert Sample.failing 0 2100%float 2100%float [0] Sample.fresh) = Ok tt /\
  active (heap (snd (moveAlert Sample.failing 0 2100%float 2100%float [0] Sample.fresh)) 0)
    = true /\
  db (snd (moveAlert Sample.failing 0 2100%float 2100%float [0] Sample.fresh)) !! "ETH-USD"
    = Some [mkAlert 2100%float "ETH-USD" 1700000000000%float true false] /\
  posts (trace (snd (moveAlert Sample.failing 0 2100%float 2100%float [0] Sample.fresh)))
    = [mkBody Sample.sub "https://aggr.example/#pane" "ETH-USD" 2000%float (VNum 2100%float)
         None None (Some 2100%float)].
Proof. repeat split; reflexivity. Qed.

(** The scenario of the spec: the alert at 100 on X is moved to 110; the
    persisted list has no alert at 100 and the one at 110 is not triggered. *)
Example move_100_to_110 :
  let env := mkEnv (Some "BPk") (Subscribed Sample.sub) "https://aggr.example/"
               (Snapshot (fun _ => Some 105%float)) Sample.accepting in
  db (snd (moveAlert env 1 110%float 105%float [1] Sample.fresh)) !! "X"
    = Some [mkAlert 110%float "X" 1700000000000%float true false].
Proof. reflexivity. Qed.

(** ** Operations do not touch the gate *)

Lemma frame_refl (w : World) : frame w w.
Proof.
  unfold frame. repeat split. exists []. rewrite app_nil_r. split; [reflexivity | constructor].
Qed.

Lemma frame_trans (w1 w2 w3 : World) : frame w1 w2 -> frame w2 w3 -> frame w1 w3.
Proof.
  intros (Hp & Hg & Hl & Hq & s & Ht & Hs) (Hp' & Hg' & Hl' & Hq' & s' & Ht' & Hs').
  unfold frame. rewrite Hp', Hg', Hl', Hq', Ht', Ht. repeat split; try assumption.
  exists (s ++ s'). rewrite app_assoc. split; [reflexivity|].
  apply Forall_app. split; assumption.
Qed.

Section Quiet.
Context {A B : Type}.

Lemma quiet_ret (a : A) : quiet (ret a).
Proof. intros w. apply frame_refl. Qed.

Lemma quiet_throw (e : JsError) : quiet (@throw A e).
Proof. intros w. apply frame_refl. Qed.

Lemma quiet_hang : quiet (@hang A).
Proof. intros w. apply frame_refl. Qed.

Lemma quiet_bind (c : M A) (k : A -> M B) :
  quiet c -> (forall a, quiet (k a)) -> quiet (bind c k).
Proof.
  intros Hc Hk w. unfold bind. specialize (Hc w).
  destruct (c w) as [[a|e|] w1]; simpl in *; try assumption.
  eapply frame_trans; [exact Hc | apply Hk].
Qed.

Lemma quiet_try_catch (c : M A) (h : JsError -> M A) :
  quiet c -> (forall e, quiet (h e)) -> quiet (try_catch c h).
Proof.
  intros Hc Hh w. unfold try_catch. specialize (Hc w).
  destruct (c w) as [[a|e|] w1]; simpl in *; try assumption.
  eapply frame_trans; [exact Hc | apply Hh].
Qed.
End Quiet.

Lemma quiet_log (e : Effect) : plain e -> quiet (log e).
Proof.
  intros He w. unfold frame, log. simpl. repeat split.
  exists [e]. split; [reflexivity | repeat constructor; assumption].
Qed.

Lemma quiet_read (l : loc) : quiet (read l).
Proof. intros w. apply frame_refl. Qed.

Lemma quiet_deref (ls : list loc) : quiet (deref ls).
Proof. intros w. apply frame_refl. Qed.

Lemma quiet_assign (l : loc) (f : MarketAlert -> MarketAlert) : quiet (assign l f).
Proof.
  intros w. unfold frame, assign. simpl. repeat split.
  eexists. split; [reflexivity | repeat constructor].
Qed.

Lemma quiet_store_getAlerts (m : string) : quiet (store_getAlerts m).
Proof.
  intros w. unfold frame, store_getAlerts. simpl. repeat split.
  eexists. split; [reflexivity | repeat constructor].
Qed.

Lemma quiet_store_saveAlerts (m : string) (alerts : list MarketAlert) :
  quiet (store_saveAlerts m alerts).
Proof.
  intros w. unfold frame, store_saveAlerts. simpl. repeat split.
  eexists. split; [reflexivity | repeat constructor].
Qed.

Create HintDb quiet.
#[local] Hint Resolve quiet_ret quiet_throw quiet_hang quiet_read quiet_deref
  quiet_assign quiet_store_getAlerts quiet_store_saveAlerts : quiet.
#[local] Hint Extern 1 (quiet (log _)) => (apply quiet_log; exact I) : quiet.
#[local] Hint Extern 1 (quiet (emit _)) => (apply quiet_log; exact I) : quiet.
#[local] Hint Extern 1 (quiet (showNotice _)) => (apply quiet_log; exact I) : quiet.
#[local] Hint Extern 1 (quiet (handleFetchError _)) => (apply quiet_log; exact I) : quiet.

(** Splits a composite computation along its binds, handlers and branches. *)
Ltac quiet_step :=
  match goal with
  | |- quiet (bind _ _) => apply quiet_bind; [|intros ?]
  | |- quiet (try_catch _ _) => apply quiet_try_catch; [|intros ?]
  | |- quiet (if ?b then _ else _) => destruct b
  | |- quiet (match ?x with _ => _ end) => destruct x
  | |- quiet _ => solve [auto with quiet]
  end.

Lemma quiet_getPushSubscription (env : Env) : quiet (getPushSubscription env).
Proof.
  intros w. unfold getPushSubscription.
  destruct (negb (truthy_ostr (publicVapidKey env))); [apply frame_refl|].
  destruct (pushSubscription w); [apply frame_refl|].
  destruct (platform env); simpl; try apply frame_refl;
    unfold frame; simpl; repeat split;
    (eexists; split; [reflexivity | repeat constructor]).
Qed.

Lemma quiet_validateAlert (env : Env) (m : string) (p : float) : quiet (validateAlert env m p).
Proof. unfold validateAlert, getPrice. repeat quiet_step. Qed.

Lemma quiet_toggleAlert (env : Env) (m : string) (p : float) (cp : JsVal)
    (unsub status : option bool) : quiet (toggleAlert env m p cp unsub status).
Proof.
  pose proof (quiet_getPushSubscription env). pose proof (quiet_validateAlert env m p).
  unfold toggleAlert, post, parsed. repeat quiet_step.
Qed.

Lemma quiet_subscribe (env : Env) (m : string) (p : float) (cp : option float) :
  quiet (subscribe env m p cp).
Proof.
  pose proof (quiet_toggleAlert env m p (optional_number cp) None None).
  unfold subscribe. repeat quiet_step.
Qed.

Lemma quiet_unsubscribe (env : Env) (m : string) (p : float) : quiet (unsubscribe env m p).
Proof.
  pose proof (quiet_toggleAlert env m p VNull (Some true) None).
  unfold unsubscribe. repeat quiet_step.
Qed.

Lemma quiet_perform (env : Env) (op : Operation) : quiet (perform env op).
Proof.
  destruct op as [c ls cp | mv np cp ls | r ls]; unfold perform.
  - unfold createAlert.
    repeat first [ apply quiet_subscribe | quiet_step ].
  - pose proof (quiet_getPushSubscription env).
    unfold moveAlert, post, registered, parsed.
    repeat first [ apply quiet_validateAlert | quiet_step ].
  - unfold removeAlert.
    repeat first [ apply quiet_unsubscribe | quiet_step ].
Qed.

Lemma quiet_for_each {A} (f : A -> M unit) (l : list A) :
  (forall x, quiet (f x)) -> quiet (for_each f l).
Proof.
  intros Hf. induction l as [|x l IH]; simpl; [apply quiet_ret|].
  apply quiet_bind; [apply Hf | intros _; exact IH].
Qed.

Lemma quiet_markAlertsAsTriggered (evs : list TriggerEvent) :
  quiet (markAlertsAsTriggered evs).
Proof.
  unfold markAlertsAsTriggered.
  destruct (group evs) as [markets|e|]; [|apply quiet_throw|apply quiet_hang].
  apply quiet_for_each. intros entry. unfold mark_market. repeat quiet_step.
Qed.

Lemma quiet_mark_market (entry : string * list float) : quiet (mark_market entry).
Proof. unfold mark_market. repeat quiet_step. Qed.

Lemma quiet_mark_loaded (entry : string * list float) (alerts : list MarketAlert) :
  quiet (mark_loaded entry alerts).
Proof. unfold mark_loaded. repeat quiet_step. Qed.

Lemma frame_on_message (data : TriggerEvent) (w : World) : frame w (on_message data w).
Proof.
  unfold on_message.
  pose proof (fun w => quiet_log (EEmit (EvTrigger data)) I w) as Hemit.
  destruct (group [data]) as [markets|e|]; try apply Hemit.
  destruct (for_in_order markets) as [|entry rest]; [apply Hemit|].
  pose proof (quiet_store_getAlerts entry.1 w) as Hget.
  destruct (store_getAlerts entry.1 w) as [[alerts|e|] w1]; simpl in Hget;
    try (eapply frame_trans; [exact Hget | apply Hemit]).
  eapply frame_trans; [exact Hget|]. eapply frame_trans; [apply Hemit|].
  apply quiet_bind; [apply quiet_mark_loaded|].
  intros _. apply quiet_for_each. apply quiet_mark_market.
Qed.

Lemma frame_messages (data : TriggerEvent) (n : nat) (w : World) :
  frame w (Nat.iter n (on_message data) w).
Proof.
  induction n as [|n IH]; simpl; [apply frame_refl|].
  eapply frame_trans; [exact IH | apply frame_on_message].
Qed.

(** ** The sync gate *)

Lemma run_snoc (acts : list Action) (a : Action) (w : World) :
  run (acts ++ [a]) w = step a (run acts w).
Proof. unfold run. rewrite fold_left_app. reflexivity. Qed.

(** Induction over the runs of the service. *)
Lemma reachable_ind (P : World -> Prop) :
  (forall h d, P (boot h d)) ->
  (forall w a, reachable w -> P w -> P (step a w)) ->
  forall w, reachable w -> P w.
Proof.
  intros Hboot Hstep w (h & d & acts & ->).
  induction acts as [|a acts IH] using rev_ind; [apply Hboot|].
  rewrite run_snoc. apply Hstep; [|exact IH]. exists h, d, acts. reflexivity.
Qed.

(** What a step does to the gate field and to the promises. *)
Lemma step_gate (a : Action) (w : World) :
  _promiseOfSync (step a w)
    = (if is_sync a then Some (length (gates w)) else _promiseOfSync w) /\
  length (gates (step a w))
    = (if is_sync a then S (length (gates w)) else length (gates w)).
Proof.
  destruct a as [env | g ns | data | m | i | env op]; simpl.
  - unfold syncTriggeredAlerts. simpl. rewrite length_app. simpl. split; [reflexivity | lia].
  - unfold recover. destruct (gates w !! g) as [[| | |e]|]; try (split; reflexivity).
    destruct ns as [evs|]; simpl; [|rewrite length_insert; split; reflexivity].
    pose proof (quiet_markAlertsAsTriggered evs w) as (Hp & Hg & _).
    destruct (markAlertsAsTriggered evs w) as [[u|e|] w1]; simpl in *;
      rewrite length_insert, Hp, Hg; split; reflexivity.
  - destruct (frame_messages data (listeners w) w) as (Hp & Hg & _).
    rewrite Hp, Hg. split; reflexivity.
  - unfold getAlerts_call. destruct (_promiseOfSync w) eqn:Hp; simpl; rewrite ?Hp;
      split; reflexivity.
  - unfold getAlerts_resume. destruct (pending w !! i) as [[g m]|]; [|split; reflexivity].
    destruct (gates w !! g) as [[| | |e]|]; split; reflexivity.
  - destruct (quiet_perform env op w) as (Hp & Hg & _). rewrite Hp, Hg. split; reflexivity.
Qed.

(** The gate field refers to a promise that exists. *)
Lemma gate_allocated (w : World) :
  reachable w -> forall g, _promiseOfSync w = Some g -> g < length (gates w).
Proof.
  intros Hw. induction Hw as [h d | w a Hw IH] using reachable_ind.
  - discriminate.
  - intros g. destruct (step_gate a w) as [-> ->].
    destruct (is_sync a).
    + intros [= <-]. lia.
    + apply IH.
Qed.

(** C9 (as amended).  The gate is assigned by the sync entry point and by
    nothing else: every other step of the service leaves the field as it is,
    so a gate once present is never absent again.  An invocation of the
    sync entry point, the first like any later one, creates a new promise and
    puts it in the field in place of the one that was there; the promises
    made before stay as they are.  The new promise is pending when the
    platform has a service worker, and rejected when it has none. *)
Theorem gate_assigned_by_sync_only (a : Action) (w : World) :
  reachable w ->
  (is_sync a = false -> _promiseOfSync (step a w) = _promiseOfSync w) /\
  (is_sync a = true ->
     _promiseOfSync (step a w) = Some (length (gates w)) /\
     length (gates (step a w)) = S (length (gates w)) /\
     _promiseOfSync (step a w) <> _promiseOfSync w) /\
  (is_Some (_promiseOfSync w) -> is_Some (_promiseOfSync (step a w))) /\
  (forall env, a = ASync env ->
     (platform env <> NoServiceWorker -> gates (step a w) = gates w ++ [GWaiting]) /\
     (platform env = NoServiceWorker ->
        gates (step a w) = gates w ++ [GRejected (read_of_undefined "ready")])).
Proof.
  intros Hw. destruct (step_gate a w) as [Hp Hg]. rewrite Hp, Hg.
  pose proof (gate_allocated w Hw) as Halloc.
  split; [|split; [|split]].
  - destruct (is_sync a); [discriminate | reflexivity].
  - destruct (is_sync a); [|discriminate]. intros _. repeat split.
    intros Heq. symmetry in Heq. apply Halloc in Heq. lia.
  - destruct (is_sync a); [eauto | trivial].
  - intros env ->. simpl. unfold syncTriggeredAlerts. simpl.
    split; [intros Hne | intros ->; reflexivity].
    destruct (platform env); try reflexivity. contradiction.
Qed.

Lemma gate_assigned_by_sync_only_witness :
  reachable (run [ASync Sample.granted] Sample.fresh) /\
  _promiseOfSync (step (AOperation Sample.granted (Create 0 [] None))
                    (run [ASync Sample.granted] Sample.fresh)) = Some 0.
Proof.
  assert (reachable (run [ASync Sample.granted] Sample.fresh)) as Hw.
  { exists Sample.records, ∅, [ASync Sample.granted]. reflexivity. }
  split; [exact Hw|].
  exact (proj1 (gate_assigned_by_sync_only
                  (AOperation Sample.granted (Create 0 [] None)) _ Hw) eq_refl).
Defined.

(** Without a service worker the promise of the sync is rejected from the
    start, and a [getAlerts] call that read it ends without having queried
    the store. *)
Example sync_without_service_worker :
  gates (run [ASync Sample.no_key] Sample.fresh) = [GRejected (read_of_undefined "ready")] /\
  trace (run [ASync Sample.no_key; AGetAlerts "X"; AResume 0] Sample.fresh)
    = [ESyncCalled 0; EGetAlertsCalled (Some 0)] /\
  pending (run [ASync Sample.no_key; AGetAlerts "X"; AResume 0] Sample.fresh) = [].
Proof. repeat split; reflexivity. Qed.

(** C9 (as stated) fails: a second invocation of the sync entry point
    replaces the gate of the first by a new promise. *)
Lemma second_sync_replaces_gate :
  _promiseOfSync (run [ASync Sample.granted] Sample.fresh) = Some 0 /\
  _promiseOfSync (run [ASync Sample.granted; ASync Sample.granted] Sample.fresh) = Some 1 /\
  gates (run [ASync Sample.granted; AReady 0 (Some []); ASync Sample.granted] Sample.fresh)
    = [GFulfilled; GWaiting].
Proof. repeat split; reflexivity. Qed.

(** ** [getAlerts] behind the gate *)

(** An occurrence in an extended trace lies in the old part or in the
    extension. *)
Lemma occurrence_app (t s t1 t2 : list Effect) (e : Effect) :
  t ++ s = t1 ++ e :: t2 ->
  (exists t2', t = t1 ++ e :: t2') \/ (exists s1, t1 = t ++ s1 /\ s = s1 ++ e :: t2).
Proof.
  intros Heq. apply app_eq_inv in Heq as [(k & -> & Hk) | (k & -> & ->)].
  - destruct k as [|e' k].
    + right. exists []. simpl in Hk. rewrite !app_nil_r. split; [reflexivity | auto].
    + simpl in Hk. injection Hk as <- ->. left. eauto.
  - right. exists k. split; reflexivity.
Qed.

Lemma served_after_gate_app (t s : list Effect) :
  served_after_gate t ->
  (forall s1 og m s2, s = s1 ++ EGetAlertsReturned og m :: s2 ->
     exists t0, t ++ s1 = t0 ++ [EStoreGet m] /\ waited og t0) ->
  served_after_gate (t ++ s).
Proof.
  intros Ht Hs t1 og m t2 Heq.
  apply occurrence_app in Heq as [(t2' & ->) | (s1 & -> & ->)].
  - eapply Ht. reflexivity.
  - eapply Hs. reflexivity.
Qed.

Lemma plain_not_returned (s s1 s2 : list Effect) (og : option nat) (m : string) :
  Forall plain s -> s <> s1 ++ EGetAlertsReturned og m :: s2.
Proof.
  intros Hs ->. apply Forall_app in Hs as [_ Hs]. inversion Hs as [|? ? Hp _]. exact Hp.
Qed.

Lemma plain_not_sync (s : list Effect) (g : nat) : Forall plain s -> ESyncCalled g ∉ s.
Proof.
  intros Hs Hin. rewrite Forall_forall in Hs. apply (Hs _ Hin).
Qed.

(** A step that leaves the gate alone keeps the invariant. *)
Lemma gate_invariant_frame (w w' : World) :
  frame w w' -> gate_invariant w -> gate_invariant w'.
Proof.
  intros (Hp & Hg & _ & Hq & s & Ht & Hs) (Hserved & Hful & Hpend & Hfield).
  unfold gate_invariant. rewrite Hp, Hg, Hq, Ht. split; [|split; [|split]].
  - apply served_after_gate_app; [exact Hserved|].
    intros s1 og m s2 Heq. exfalso. exact (plain_not_returned _ _ _ _ _ Hs Heq).
  - intros g Hg'. apply elem_of_app. left. auto.
  - intros g m Hin. destruct (Hpend g m Hin). split; apply elem_of_app; left; assumption.
  - destruct (_promiseOfSync w) as [g|].
    + apply elem_of_app. left. assumption.
    + intros g Hin. apply elem_of_app in Hin as [Hin|Hin].
      * exact (Hfield g Hin).
      * exact (plain_not_sync s g Hs Hin).
Qed.

Lemma gate_invariant_step (a : Action) (w : World) :
  gate_invariant w -> gate_invariant (step a w).
Proof.
  intros Hinv.
  destruct a as [env | g ns | data | m | i | env op]; simpl.
  - (* syncTriggeredAlerts *)
    destruct Hinv as (Hserved & Hful & Hpend & Hfield).
    unfold syncTriggeredAlerts, gate_invariant. simpl. split; [|split; [|split]].
    + apply served_after_gate_app; [exact Hserved|].
      intros [|e s1] og m s2 Heq; [discriminate|].
      injection Heq as _ Heq. destruct s1; discriminate.
    + intros g Hg. apply elem_of_app. left. apply Hful.
      apply lookup_app_Some in Hg as [Hg | [_ Hg]]; [exact Hg|].
      exfalso. destruct (length (gates w)) as [|n] eqn:Hlen;
        destruct (g - _) as [|[|k]]; destruct (platform env); simpl in Hg; discriminate.
    + intros g m Hin. destruct (Hpend g m Hin). split; apply elem_of_app; left; assumption.
    + apply elem_of_app. right. apply list_elem_of_singleton. reflexivity.
  - (* the recovery *)
    unfold recover. destruct (gates w !! g) as [[| | |e]|] eqn:Hgate; try exact Hinv.
    destruct ns as [evs|].
    + pose proof (quiet_markAlertsAsTriggered evs w) as Hframe.
      destruct (markAlertsAsTriggered evs w) as [[u|e|] w1]; simpl in Hframe.
      * pose proof (gate_invariant_frame _ _ Hframe Hinv)
          as (Hserved & Hful & Hpend & Hfield).
        unfold gate_invariant. simpl. split; [|split; [|split]].
        -- apply served_after_gate_app; [exact Hserved|].
           intros [|e s1] og m s2 Heq; [discriminate|].
           injection Heq as _ Heq. destruct s1; discriminate.
        -- intros g' Hg'. apply elem_of_app.
           destruct (decide (g = g')) as [<-|Hne].
           ++ right. apply list_elem_of_singleton. reflexivity.
           ++ left. apply Hful. rewrite list_lookup_insert_ne in Hg'; assumption.
        -- intros g' m Hin. destruct (Hpend g' m Hin).
           split; apply elem_of_app; left; assumption.
        -- destruct (_promiseOfSync w1) as [g'|].
           ++ apply elem_of_app. left. assumption.
           ++ intros g' Hin. apply elem_of_app in Hin as [Hin|Hin].
              ** exact (Hfield g' Hin).
              ** apply list_elem_of_singleton in Hin. discriminate.
      * pose proof (gate_invariant_frame _ _ Hframe Hinv)
          as (Hserved & Hful & Hpend & Hfield).
        unfold gate_invariant. simpl. split; [exact Hserved | split; [|split; assumption]].
        intros g' Hg'. apply Hful. destruct (decide (g = g')) as [<-|Hne].
        -- apply list_lookup_insert_Some in Hg' as [(_ & Hg' & _) | [Hne _]];
             [discriminate | contradiction].
        -- rewrite list_lookup_insert_ne in Hg'; assumption.
      * pose proof (gate_invariant_frame _ _ Hframe Hinv)
          as (Hserved & Hful & Hpend & Hfield).
        unfold gate_invariant. simpl. split; [exact Hserved | split; [|split; assumption]].
        intros g' Hg'. apply Hful. destruct (decide (g = g')) as [<-|Hne].
        -- apply list_lookup_insert_Some in Hg' as [(_ & Hg' & _) | [Hne _]];
             [discriminate | contradiction].
        -- rewrite list_lookup_insert_ne in Hg'; assumption.
    + destruct Hinv as (Hserved & Hful & Hpend & Hfield).
      unfold gate_invariant. simpl. split; [exact Hserved | split; [|split; assumption]].
      intros g' Hg'. apply Hful. destruct (decide (g = g')) as [<-|Hne].
      * apply list_lookup_insert_Some in Hg' as [(_ & Hg' & _) | [Hne _]];
          [discriminate | contradiction].
      * rewrite list_lookup_insert_ne in Hg'; assumption.
  - (* a push message *)
    exact (gate_invariant_frame _ _ (frame_messages data (listeners w) w) Hinv).
  - (* getAlerts is called *)
    destruct Hinv as (Hserved & Hful & Hpend & Hfield).
    unfold getAlerts_call, gate_invariant.
    destruct (_promiseOfSync w) as [g|] eqn:Hp; simpl; rewrite ?Hp.
    + split; [|split; [|split]].
      * apply served_after_gate_app; [exact Hserved|].
        intros [|e s1] og m' s2 Heq; [discriminate|].
        injection Heq as _ Heq. destruct s1; discriminate.
      * intros g' Hg'. apply elem_of_app. left. auto.
      * intros g' m' Hin. apply elem_of_app in Hin as [Hin|Hin].
        -- destruct (Hpend g' m' Hin). split; apply elem_of_app; left; assumption.
        -- apply list_elem_of_singleton in Hin. injection Hin as -> ->.
           split; apply elem_of_app; [left; assumption|].
           right. apply list_elem_of_singleton. reflexivity.
      * apply elem_of_app. left. assumption.
    + assert (forall g, ESyncCalled g ∉
                ((trace w ++ [EGetAlertsCalled None]) ++ [EStoreGet m])) as Hnone.
      { intros g Hin. apply elem_of_app in Hin as [Hin|Hin].
        - apply elem_of_app in Hin as [Hin|Hin]; [exact (Hfield g Hin)|].
          apply list_elem_of_singleton in Hin. discriminate.
        - apply list_elem_of_singleton in Hin. discriminate. }
      split; [|split; [|split]].
      * rewrite <- !app_assoc. apply served_after_gate_app; [exact Hserved|].
        intros s1 og m' s2 Heq.
        destruct s1 as [|e1 [|e2 [|e3 s1]]]; try discriminate.
        -- injection Heq as <- <- <- <- _. exists (trace w ++ [EGetAlertsCalled None]).
           split; [rewrite <- app_assoc; reflexivity|]. simpl.
           intros g Hin. apply (Hnone g). apply elem_of_app. left. exact Hin.
        -- injection Heq as _ _ _ Heq. destruct s1; discriminate.
      * intros g' Hg'. apply elem_of_app. left. apply elem_of_app. left.
        apply elem_of_app. left. auto.
      * intros g' m' Hin. destruct (Hpend g' m' Hin).
        split; apply elem_of_app; left; apply elem_of_app; left;
          apply elem_of_app; left; assumption.
      * intros g Hin. apply elem_of_app in Hin as [Hin|Hin].
        -- exact (Hnone g Hin).
        -- apply list_elem_of_singleton in Hin. discriminate.
  - (* a suspended getAlerts continues *)
    destruct Hinv as (Hserved & Hful & Hpend & Hfield).
    unfold getAlerts_resume.
    destruct (pending w !! i) as [[g m]|] eqn:Hi;
      [|exact (conj Hserved (conj Hful (conj Hpend Hfield)))].
    assert ((g, m) ∈ pending w) as Hin by (eapply list_elem_of_lookup_2; exact Hi).
    destruct (Hpend g m Hin) as [Hsync Hcalled].
    destruct (gates w !! g) as [[| | |e]|] eqn:Hgate;
      try exact (conj Hserved (conj Hful (conj Hpend Hfield))).
    + unfold gate_invariant. simpl. split; [|split; [|split]].
      * rewrite <- !app_assoc. apply served_after_gate_app; [exact Hserved|].
        intros s1 og m' s2 Heq.
        destruct s1 as [|e1 [|e2 s1]]; try discriminate.
        -- injection Heq as <- <- <- _. exists (trace w).
           split; [reflexivity|]. simpl. repeat split; auto.
        -- injection Heq as _ _ Heq. destruct s1; discriminate.
      * intros g' Hg'. apply elem_of_app. left. apply elem_of_app. left. auto.
      * intros g' m' Hin'. apply list_elem_of_delete_inv in Hin'.
        destruct (Hpend g' m' Hin').
        split; apply elem_of_app; left; apply elem_of_app; left; assumption.
      * destruct (_promiseOfSync w) as [g'|].
        -- apply elem_of_app. left. apply elem_of_app. left. assumption.
        -- intros g' Hin'. apply elem_of_app in Hin' as [Hin'|Hin'].
           ++ apply elem_of_app in Hin' as [Hin'|Hin']; [exact (Hfield g' Hin')|].
              apply list_elem_of_singleton in Hin'. discriminate.
           ++ apply list_elem_of_singleton in Hin'. discriminate.
    + unfold gate_invariant. simpl. split; [exact Hserved | split; [exact Hful|]].
      split; [|exact Hfield].
      intros g' m' Hin'. apply list_elem_of_delete_inv in Hin'. exact (Hpend g' m' Hin').
  - (* an operation of the facade *)
    exact (gate_invariant_frame _ _ (quiet_perform env op w) Hinv).
Qed.

Lemma gate_invariant_reachable (w : World) : reachable w -> gate_invariant w.
Proof.
  intros Hw. induction Hw as [h d | w a _ IH] using reachable_ind.
  - unfold gate_invariant, boot. simpl. split; [|split; [|split]].
    + intros [|e t1] og m t2 Heq; discriminate.
    + intros g Hg. discriminate.
    + intros g m Hin. inversion Hin.
    + intros g Hin. inversion Hin.
  - apply gate_invariant_step. exact IH.
Qed.

(** A promise that has left the waiting state keeps its state. *)
Lemma step_settled (a : Action) (w : World) (g : nat) (st : GateState) :
  gates w !! g = Some st -> st <> GWaiting -> gates (step a w) !! g = Some st.
Proof.
  intros Hg Hst.
  destruct a as [env | g' ns | data | m | i | env op]; simpl.
  - unfold syncTriggeredAlerts. simpl. apply lookup_app_l_Some. exact Hg.
  - unfold recover. destruct (gates w !! g') as [[| | |e]|] eqn:Hg'; try exact Hg.
    assert (g' <> g) as Hne by (intros ->; congruence).
    destruct ns as [evs|]; simpl; [|rewrite list_lookup_insert_ne; assumption].
    pose proof (quiet_markAlertsAsTriggered evs w) as (_ & Hgs & _).
    destruct (markAlertsAsTriggered evs w) as [[u|e|] w1]; simpl in *;
      rewrite list_lookup_insert_ne, Hgs; assumption.
  - destruct (frame_messages data (listeners w) w) as (_ & -> & _). exact Hg.
  - unfold getAlerts_call. destruct (_promiseOfSync w); exact Hg.
  - unfold getAlerts_resume. destruct (pending w !! i) as [[g' m]|]; [|exact Hg].
    destruct (gates w !! g') as [[| | |e]|]; exact Hg.
  - destruct (quiet_perform env op w) as (_ & -> & _). exact Hg.
Qed.

(** The fulfilment of a promise is in the trace only if the promise is
    fulfilled. *)
Lemma fulfilment_recorded (w : World) :
  reachable w -> forall g, EGateFulfilled g ∈ trace w -> gates w !! g = Some GFulfilled.
Proof.
  intros Hw. induction Hw as [h d | w a _ IH] using reachable_ind.
  - intros g Hin. inversion Hin.
  - assert (forall s, trace (step a w) = trace w ++ s ->
              (forall g, EGateFulfilled g ∈ s -> gates (step a w) !! g = Some GFulfilled) ->
              forall g, EGateFulfilled g ∈ trace (step a w) ->
                        gates (step a w) !! g = Some GFulfilled) as Hext.
    { intros s Hs Hnew g Hin. rewrite Hs in Hin. apply elem_of_app in Hin as [Hin|Hin].
      - apply step_settled; [apply IH; exact Hin | discriminate].
      - apply Hnew. exact Hin. }
    assert (forall w', frame w w' -> step a w = w' ->
              forall g, EGateFulfilled g ∈ trace (step a w) ->
                        gates (step a w) !! g = Some GFulfilled) as Hframe.
    { intros w' (_ & _ & _ & _ & s & Ht & Hs) Heq. rewrite Heq in *.
      apply (Hext s Ht). intros g Hin. exfalso.
      rewrite Forall_forall in Hs. exact (Hs _ Hin). }
    destruct a as [env | g' ns | data | m | i | env op].
    + apply (Hext [ESyncCalled (length (gates w))]); [reflexivity|].
      intros g Hin. apply list_elem_of_singleton in Hin. discriminate.
    + simpl in *. unfold recover in *.
      destruct (gates w !! g') as [[| | |e]|] eqn:Hg';
        try (apply (Hext []); [rewrite app_nil_r; reflexivity | intros g Hin; inversion Hin]).
      destruct ns as [evs|];
        [|apply (Hext []); [rewrite app_nil_r; reflexivity | intros g Hin; inversion Hin]].
      pose proof (quiet_markAlertsAsTriggered evs w) as Hq.
      destruct (markAlertsAsTriggered evs w) as [[u|e|] w1]; simpl in Hq.
      * destruct Hq as (_ & Hgs & _ & _ & s & Ht & Hs).
        apply (Hext (s ++ [EGateFulfilled g'])).
        { simpl. rewrite Ht, <- app_assoc. reflexivity. }
        intros g Hin. apply elem_of_app in Hin as [Hin|Hin].
        -- exfalso. rewrite Forall_forall in Hs. exact (Hs _ Hin).
        -- apply list_elem_of_singleton in Hin. injection Hin as ->. simpl.
           apply list_lookup_insert_eq. rewrite Hgs. eapply lookup_lt_Some. exact Hg'.
      * destruct Hq as (_ & _ & _ & _ & s & Ht & Hs).
        apply (Hext s); [exact Ht|].
        intros g Hin. exfalso. rewrite Forall_forall in Hs. exact (Hs _ Hin).
      * destruct Hq as (_ & _ & _ & _ & s & Ht & Hs).
        apply (Hext s); [exact Ht|].
        intros g Hin. exfalso. rewrite Forall_forall in Hs. exact (Hs _ Hin).
    + apply (Hframe _ (frame_messages data (listeners w) w)). reflexivity.
    + simpl in *. unfold getAlerts_call in *. destruct (_promiseOfSync w) as [g'|].
      * apply (Hext [EGetAlertsCalled (Some g')]); [reflexivity|].
        intros g Hin. apply list_elem_of_singleton in Hin. discriminate.
      * apply (Hext [EGetAlertsCalled None; EStoreGet m; EGetAlertsReturned None m]).
        { simpl. rewrite <- !app_assoc. reflexivity. }
        intros g Hin. repeat (apply elem_of_cons in Hin as [Hin|Hin]; [discriminate|]).
        inversion Hin.
    + simpl in *. unfold getAlerts_resume in *.
      destruct (pending w !! i) as [[g' m]|];
        [|apply (Hext []); [rewrite app_nil_r; reflexivity | intros g Hin; inversion Hin]].
      destruct (gates w !! g') as [[| | |e]|];
        try (apply (Hext []); [rewrite app_nil_r; reflexivity | intros g Hin; inversion Hin]).
      apply (Hext [EStoreGet m; EGetAlertsReturned (Some g') m]).
      { simpl. rewrite <- !app_assoc. reflexivity. }
      intros g Hin. repeat (apply elem_of_cons in Hin as [Hin|Hin]; [discriminate|]).
      inversion Hin.
    + apply (Hframe _ (quiet_perform env op w)). reflexivity.
Qed.

(** C1 (as amended).  In every run of the service:
    - a [getAlerts] call that finds a promise in [_promiseOfSync] (the sync
      entry point has been invoked) is suspended on it: the call itself does
      not query the store;
    - a call that finds none (the sync entry point was never invoked) queries
      the store and returns at once, whatever the market;
    - a suspended call continues with the store query and returns when the
      promise it read is fulfilled; as long as the promise is not fulfilled
      (pending, stuck or rejected) its continuation queries nothing;
    - so every return of a call is preceded, immediately, by the store query
      of this call, and before that query the promise the call read had been
      created and had fulfilled -- or no sync had ever been started;
    - a promise is recorded as fulfilled exactly when its state is. *)
Theorem getAlerts_served_after_its_gate (w : World) :
  reachable w ->
  (forall m,
     match _promiseOfSync w with
     | Some g =>
         ESyncCalled g ∈ trace w /\
         trace (step (AGetAlerts m) w) = trace w ++ [EGetAlertsCalled (Some g)] /\
         pending (step (AGetAlerts m) w) = pending w ++ [(g, m)]
     | None =>
         (forall g, ESyncCalled g ∉ trace w) /\
         trace (step (AGetAlerts m) w)
           = trace w ++ [EGetAlertsCalled None; EStoreGet m; EGetAlertsReturned None m] /\
         pending (step (AGetAlerts m) w) = pending w
     end) /\
  (forall i g m, pending w !! i = Some (g, m) ->
     (gates w !! g = Some GFulfilled ->
        trace (step (AResume i) w)
          = trace w ++ [EStoreGet m; EGetAlertsReturned (Some g) m] /\
        pending (step (AResume i) w) = delete i (pending w)) /\
     (gates w !! g <> Some GFulfilled -> trace (step (AResume i) w) = trace w)) /\
  (forall t1 og m t2,
     trace w = t1 ++ EGetAlertsReturned og m :: t2 ->
     exists t0, t1 = t0 ++ [EStoreGet m] /\
       match og with
       | Some g =>
           ESyncCalled g ∈ t0 /\ EGetAlertsCalled (Some g) ∈ t0 /\ EGateFulfilled g ∈ t0
       | None => forall g, ESyncCalled g ∉ t0
       end) /\
  (forall g, EGateFulfilled g ∈ trace w <-> gates w !! g = Some GFulfilled).
Proof.
  intros Hw.
  destruct (gate_invariant_reachable w Hw) as (Hserved & Hful & _ & Hfield).
  split; [|split; [|split]].
  - intros m. simpl. unfold getAlerts_call.
    destruct (_promiseOfSync w) as [g|]; (split; [exact Hfield|]); simpl.
    + split; reflexivity.
    + rewrite <- !app_assoc. split; reflexivity.
  - intros i g m Hi. simpl. unfold getAlerts_resume. rewrite Hi. split.
    + intros ->. simpl. rewrite <- app_assoc. split; reflexivity.
    + intros Hne. destruct (gates w !! g) as [[| | |e]|]; try reflexivity.
      contradiction.
  - intros t1 og m t2 Heq. exact (Hserved t1 og m t2 Heq).
  - intros g. split; [apply fulfilment_recorded; exact Hw | apply Hful].
Qed.

Lemma getAlerts_served_after_its_gate_witness :
  reachable (run [ASync Sample.granted; AGetAlerts "X"; AReady 0 (Some [])] Sample.fresh) /\
  trace (step (AResume 0)
           (run [ASync Sample.granted; AGetAlerts "X"; AReady 0 (Some [])] Sample.fresh))
    = [ESyncCalled 0; EGetAlertsCalled (Some 0); EGateFulfilled 0;
       EStoreGet "X"; EGetAlertsReturned (Some 0) "X"].
Proof.
  assert (reachable (run [ASync Sample.granted; AGetAlerts "X"; AReady 0 (Some [])]
                       Sample.fresh)) as Hw.
  { eexists _, _, _. reflexivity. }
  split; [exact Hw|].
  exact (proj1 (proj1 (proj1 (proj2 (getAlerts_served_after_its_gate _ Hw))
                         0 0 "X" eq_refl) eq_refl)).
Defined.

(** C1 (as stated) fails: called in a fresh process, before any sync,
    [getAlerts] hands over to the store at once; no gate exists, let alone a
    resolved one. *)
Lemma getAlerts_before_sync_is_not_gated :
  trace (run [AGetAlerts "BTC-USD"] Sample.fresh)
    = [EGetAlertsCalled None; EStoreGet "BTC-USD"; EGetAlertsReturned None "BTC-USD"] /\
  gates (run [AGetAlerts "BTC-USD"] Sample.fresh) = [].
Proof. split; reflexivity. Qed.

(** With the sync started first, the same call stays suspended until the
    recovery has run. *)
Example getAlerts_after_sync_is_gated :
  trace (run [ASync Sample.granted; AGetAlerts "BTC-USD"; AResume 0] Sample.fresh)
    = [ESyncCalled 0; EGetAlertsCalled (Some 0)] /\
  trace (run [ASync Sample.granted; AGetAlerts "BTC-USD"; AReady 0 (Some []); AResume 0]
           Sample.fresh)
    = [ESyncCalled 0; EGetAlertsCalled (Some 0); EGateFulfilled 0;
       EStoreGet "BTC-USD"; EGetAlertsReturned (Some 0) "BTC-USD"].
Proof. split; reflexivity. Qed.

(** ** Reconciliation *)

(** *** Grouping the events by market *)

Lemma own_push_price (k m : string) (p : float) (acc : list (string * list float)) :
  own (push_price k p acc) m
    = if String.eqb k m then (fun ps => ps ++ [p]) <$> own acc m else own acc m.
Proof.
  induction acc as [|[k' ps] acc IH]; simpl.
  - destruct (String.eqb k m); reflexivity.
  - destruct (String.eqb_spec k' k) as [->|Hk]; simpl.
    + destruct (String.eqb_spec k m) as [->|Hm]; simpl; reflexivity.
    + rewrite IH. destruct (String.eqb_spec k' m) as [->|Hm]; [|reflexivity].
      destruct (String.eqb_spec k m) as [->|_]; [contradiction|reflexivity].
Qed.

Lemma own_snoc (k m : string) (ps : list float) (acc : list (string * list float)) :
  own (acc ++ [(k, ps)]) m
    = match own acc m with
      | Some ps' => Some ps'
      | None => if String.eqb k m then Some ps else None
      end.
Proof.
  induction acc as [|[k' ps'] acc IH]; simpl; [reflexivity|].
  destruct (String.eqb k' m); [reflexivity | exact IH].
Qed.

Lemma keys_push_price (k : string) (p : float) (acc : list (string * list float)) :
  (push_price k p acc).*1 = acc.*1.
Proof.
  induction acc as [|[k' ps] acc IH]; csimpl; [reflexivity|].
  destruct (String.eqb k' k); csimpl; [reflexivity | rewrite IH; reflexivity].
Qed.

Lemma own_None (acc : list (string * list float)) (k : string) :
  own acc k = None <-> k ∉ acc.*1.
Proof.
  induction acc as [|[k' ps] acc IH]; simpl.
  - split; [intros _ Hin; inversion Hin | reflexivity].
  - rewrite not_elem_of_cons.
    destruct (String.eqb_spec k' k) as [->|Hk].
    + split; [discriminate | intros [Hne _]; contradiction].
    + rewrite IH. split; [intros H; split; [congruence | exact H] | intros [_ H]; exact H].
Qed.

Lemma own_Some (acc : list (string * list float)) (k : string) (ps : list float) :
  NoDup acc.*1 -> own acc k = Some ps <-> (k, ps) ∈ acc.
Proof.
  induction acc as [|[k' ps'] acc IH]; simpl; intros Hnd.
  - split; [discriminate | intros Hin; inversion Hin].
  - apply NoDup_cons in Hnd as [Hk' Hnd]. rewrite elem_of_cons.
    destruct (String.eqb_spec k' k) as [->|Hk].
    + split.
      * intros [= ->]. left. reflexivity.
      * intros [[= ->] | Hin]; [reflexivity|].
        exfalso. apply Hk'. apply list_elem_of_fmap. exists (k, ps). split; [reflexivity | exact Hin].
    + rewrite (IH Hnd). split; [intros H; right; exact H|].
      intros [[= -> ->] | H]; [contradiction | exact H].
Qed.

(** On lists without duplicate keys, [own] does not see the order. *)
Lemma own_Permutation (acc acc' : list (string * list float)) (k : string) :
  NoDup acc.*1 -> acc ≡ₚ acc' -> own acc' k = own acc k.
Proof.
  intros Hnd Hperm.
  assert (NoDup acc'.*1) as Hnd' by (rewrite <- Hperm; exact Hnd).
  destruct (own acc k) as [ps|] eqn:Hown.
  - apply own_Some; [exact Hnd'|]. rewrite <- Hperm. apply own_Some; assumption.
  - apply own_None. rewrite <- Hperm. apply own_None. exact Hown.
Qed.

Lemma prices_for_cons (m : string) (ev : TriggerEvent) (evs : list TriggerEvent) :
  prices_for m (ev :: evs)
    = match well_formed ev with
      | Some (m', p) => if String.eqb m' m then p :: prices_for m evs else prices_for m evs
      | None => prices_for m evs
      end.
Proof.
  unfold prices_for. simpl. destruct (well_formed ev) as [[m' p]|]; [|reflexivity].
  destruct (String.eqb m' m); reflexivity.
Qed.

(** The accumulator after the [reduce]: every market keeps its array,
    extended by the prices of its kept events; a market is added when its first
    kept event comes.  No kept event may name a member of [Object.prototype]. *)
Lemma group_from_spec (evs : list TriggerEvent) (acc : list (string * list float)) :
  (forall ev m p, ev ∈ evs -> well_formed ev = Some (m, p) -> inherited_key m = false) ->
  NoDup acc.*1 ->
  exists acc',
    group_from acc evs = Ok acc' /\ NoDup acc'.*1 /\
    forall m, own acc' m
              = match own acc m with
                | Some ps => Some (ps ++ prices_for m evs)
                | None => match prices_for m evs with
                          | [] => None
                          | ps => Some ps
                          end
                end.
Proof.
  revert acc. induction evs as [|ev evs IH]; intros acc Hsafe Hnd.
  - exists acc. simpl. repeat split; [exact Hnd|].
    intros m. destruct (own acc m); [rewrite app_nil_r|]; reflexivity.
  - assert (forall ev' m p, ev' ∈ evs -> well_formed ev' = Some (m, p) ->
                            inherited_key m = false) as Hsafe'.
    { intros ev' m p Hin. apply Hsafe. right. exact Hin. }
    cbn [group_from]. unfold group_step.
    pose proof (Hsafe ev) as Hev. unfold well_formed in Hev.
    assert (forall m, prices_for m (ev :: evs)
              = match t_market ev, is_number (t_price ev) with
                | Some m', Some p =>
                    if truthy_str m' then
                      if String.eqb m' m then p :: prices_for m evs else prices_for m evs
                    else prices_for m evs
                | _, _ => prices_for m evs
                end) as Hcons.
    { intros m. rewrite prices_for_cons. unfold well_formed.
      destruct (t_market ev) as [m'|]; [|reflexivity].
      destruct (is_number (t_price ev)); [|reflexivity].
      destruct (truthy_str m'); reflexivity. }
    destruct (t_market ev) as [k|].
    2:{ destruct (IH acc Hsafe' Hnd) as (acc' & Hg & Hnd' & Hown).
        exists acc'. repeat split; try assumption.
        intros m. rewrite Hown, Hcons. reflexivity. }
    destruct (is_number (t_price ev)) as [p|].
    2:{ destruct (IH acc Hsafe' Hnd) as (acc' & Hg & Hnd' & Hown).
        exists acc'. repeat split; try assumption.
        intros m. rewrite Hown, Hcons. reflexivity. }
    destruct (truthy_str k).
    2:{ destruct (IH acc Hsafe' Hnd) as (acc' & Hg & Hnd' & Hown).
        exists acc'. repeat split; try assumption.
        intros m. rewrite Hown, Hcons. reflexivity. }
    specialize (Hev k p (list_elem_of_here _ _) eq_refl).
    unfold get_property. rewrite Hev.
    destruct (own acc k) as [ps0|] eqn:Hk.
    + destruct (IH (push_price k p acc) Hsafe') as (acc' & Hg & Hnd' & Hown).
      { rewrite keys_push_price. exact Hnd. }
      exists acc'. repeat split; try assumption.
      intros m. rewrite Hown, Hcons, own_push_price.
      destruct (String.eqb_spec k m) as [<-|Hne].
      * rewrite Hk. simpl. rewrite <- app_assoc. reflexivity.
      * reflexivity.
    + destruct (IH (push_price k p (acc ++ [(k, [])])) Hsafe') as (acc' & Hg & Hnd' & Hown).
      { rewrite keys_push_price, fmap_app. simpl.
        apply NoDup_app. split; [exact Hnd|]. split; [|apply NoDup_singleton].
        intros x Hx Hx'. apply list_elem_of_singleton in Hx'. subst x.
        apply own_None in Hk. contradiction. }
      exists acc'. repeat split; try assumption.
      intros m. rewrite Hown, Hcons, own_push_price, own_snoc.
      destruct (String.eqb_spec k m) as [<-|Hne].
      * rewrite Hk. reflexivity.
      * destruct (own acc m); reflexivity.
Qed.

(** *** The order of the loop over the markets *)

Lemma for_in_order_Permutation (acc : list (string * list float)) :
  for_in_order acc ≡ₚ acc.
Proof.
  unfold for_in_order. rewrite merge_sort_Permutation.
  induction acc as [|e acc IH]; [reflexivity|].
  unfold is_named, indexed in *. csimpl.
  destruct (array_index e.1); csimpl.
  - rewrite IH. reflexivity.
  - rewrite <- Permutation_middle, IH. reflexivity.
Qed.

(** *** Marking the alerts of one market *)

Lemma mark_first_prices (p : float) (alerts : list MarketAlert) :
  price <$> mark_first p alerts = price <$> alerts.
Proof.
  induction alerts as [|a alerts IH]; csimpl; [reflexivity|].
  destruct (PrimFloat.eqb (price a) p); csimpl; [reflexivity | rewrite IH; reflexivity].
Qed.

(** The first match is a matter of prices only. *)
Lemma first_match_prices (p : float) (alerts alerts' : list MarketAlert) :
  price <$> alerts' = price <$> alerts -> first_match p alerts' = first_match p alerts.
Proof.
  revert alerts'. induction alerts as [|a alerts IH]; intros [|a' alerts'] Heq;
    try discriminate; [reflexivity|].
  injection Heq as Hp Heq. csimpl. rewrite Hp, (IH _ Heq). reflexivity.
Qed.

Lemma mark_first_lookup (p : float) (alerts : list MarketAlert) (i : nat) :
  mark_first p alerts !! i
    = (fun a => if first_at alerts i p then set_triggered true a else a) <$> alerts !! i.
Proof.
  unfold first_at. revert i. induction alerts as [|a alerts IH]; intros i; [reflexivity|].
  simpl. destruct (PrimFloat.eqb (price a) p).
  - destruct i as [|i]; simpl; [reflexivity|]. destruct (alerts !! i); reflexivity.
  - destruct i as [|i]; simpl.
    + destruct (first_match p alerts); reflexivity.
    + rewrite IH. destruct (first_match p alerts); reflexivity.
Qed.

Lemma existsb_same {A} (f g : A -> bool) (l : list A) :
  (forall x, f x = g x) -> existsb f l = existsb g l.
Proof.
  intros Hfg. induction l as [|x l IH]; simpl; [reflexivity|]. rewrite Hfg, IH. reflexivity.
Qed.

Lemma mark_prices_prices (ps : list float) (alerts : list MarketAlert) :
  price <$> mark_prices ps alerts = price <$> alerts.
Proof.
  unfold mark_prices. revert alerts. induction ps as [|p ps IH]; intros alerts;
    [reflexivity|].
  simpl. rewrite IH. apply mark_first_prices.
Qed.

(** After the loop over the prices, an alert is triggered when it is the
    first match of one of them, and is as it was otherwise. *)
Lemma mark_prices_lookup (ps : list float) (alerts : list MarketAlert) (i : nat) :
  mark_prices ps alerts !! i
    = (fun a => if existsb (first_at alerts i) ps then set_triggered true a else a)
        <$> alerts !! i.
Proof.
  unfold mark_prices. revert alerts. induction ps as [|p ps IH]; intros alerts.
  - simpl. destruct (alerts !! i); reflexivity.
  - simpl. rewrite IH, mark_first_lookup.
    assert (forall q, first_at (mark_first p alerts) i q = first_at alerts i q) as Hsame.
    { intros q. unfold first_at.
      rewrite (first_match_prices q alerts (mark_first p alerts) (mark_first_prices p alerts)).
      reflexivity. }
    rewrite (existsb_same _ _ ps Hsame).
    destruct (alerts !! i) as [a|]; [|reflexivity]. simpl.
    destruct (first_at alerts i p); simpl; [|reflexivity].
    destruct (existsb (first_at alerts i) ps); reflexivity.
Qed.

Lemma hit_prices_for (evs : list TriggerEvent) (m : string) (alerts : list MarketAlert) (i : nat) :
  hit evs m alerts i = existsb (first_at alerts i) (prices_for m evs).
Proof.
  unfold hit. induction evs as [|ev evs IH]; [reflexivity|].
  rewrite prices_for_cons. simpl. rewrite IH.
  destruct (well_formed ev) as [[m' p]|]; [|reflexivity].
  destruct (String.eqb m' m); reflexivity.
Qed.

(** *** The loop over the markets *)

Lemma stored_insert (d : gmap string (list MarketAlert)) (k m : string)
    (alerts : list MarketAlert) :
  stored (<[k := alerts]> d) m = if String.eqb k m then alerts else stored d m.
Proof.
  unfold stored. destruct (String.eqb_spec k m) as [->|Hne].
  - rewrite lookup_insert_eq. reflexivity.
  - rewrite lookup_insert_ne; [reflexivity | exact Hne].
Qed.

Lemma mark_market_spec (k : string) (ps : list float) (w : World) :
  fst (mark_market (k, ps) w) = Ok tt /\
  forall m, stored (db (snd (mark_market (k, ps) w))) m
            = if String.eqb k m then mark_prices ps (stored (db w) m) else stored (db w) m.
Proof.
  unfold mark_market, bind, store_getAlerts, store_saveAlerts, ret. simpl.
  destruct (stored (db w) k) as [|a alerts] eqn:Hk; simpl.
  - split; [reflexivity|]. intros m.
    destruct (String.eqb_spec k m) as [<-|_]; [|reflexivity].
    rewrite Hk. unfold mark_prices.
    clear. induction ps as [|p ps IH]; [reflexivity | exact IH].
  - split; [reflexivity|]. intros m. rewrite stored_insert.
    destruct (String.eqb_spec k m) as [<-|_]; [rewrite Hk|]; reflexivity.
Qed.

Lemma for_each_mark_market (entries : list (string * list float)) (w : World) :
  NoDup entries.*1 ->
  fst (for_each mark_market entries w) = Ok tt /\
  forall m, stored (db (snd (for_each mark_market entries w))) m
            = match own entries m with
              | Some ps => mark_prices ps (stored (db w) m)
              | None => stored (db w) m
              end.
Proof.
  revert w. induction entries as [|[k ps] entries IH]; intros w Hnd.
  - split; reflexivity.
  - csimpl in Hnd. apply NoDup_cons in Hnd as [Hk Hnd]. cbn [for_each]. unfold bind.
    destruct (mark_market_spec k ps w) as [Hres Hdb].
    destruct (mark_market (k, ps) w) as [res w1]. simpl in Hres, Hdb. subst res.
    destruct (IH w1 Hnd) as [Hres' Hdb']. split; [exact Hres'|].
    intros m. rewrite Hdb', Hdb. cbn [own].
    destruct (String.eqb_spec k m) as [<-|Hne]; [|reflexivity].
    apply own_None in Hk. rewrite Hk. reflexivity.
Qed.

(** X1 (what holds of C2).  For every list of trigger events none of which
    names a member of [Object.prototype] as its market:
    [markAlertsAsTriggered] completes
    without an error, and in every market's stored list the alerts that are
    the first match of a kept event of that market have [triggered = true]
    while every other alert is as it was.  Events without a market, with a
    price that is not a number, or with no matching stored price change
    nothing. *)
Theorem markAlertsAsTriggered_marks (evs : list TriggerEvent) (w : World) :
  (forall ev m p, ev ∈ evs -> well_formed ev = Some (m, p) -> inherited_key m = false) ->
  let w' := snd (markAlertsAsTriggered evs w) in
  fst (markAlertsAsTriggered evs w) = Ok tt /\
  heap w' = heap w /\
  forall m,
    length (stored (db w') m) = length (stored (db w) m) /\
    forall i a,
      stored (db w) m !! i = Some a ->
      stored (db w') m !! i
        = Some (if hit evs m (stored (db w) m) i then set_triggered true a else a).
Proof.
  intros Hsafe w'. subst w'. unfold markAlertsAsTriggered, group.
  destruct (group_from_spec evs [] Hsafe (NoDup_nil_2)) as (acc & -> & Hnd & Hown).
  assert (NoDup (for_in_order acc).*1) as Hnd'.
  { rewrite for_in_order_Permutation. exact Hnd. }
  destruct (for_each_mark_market (for_in_order acc) w Hnd') as [Hres Hdb].
  split; [exact Hres|]. split.
  { clear. generalize (for_in_order acc). intros entries. revert w.
    induction entries as [|[k ps] entries IH]; intros w; [reflexivity|].
    cbn [for_each]. unfold bind.
    assert (heap (snd (mark_market (k, ps) w)) = heap w) as Hh.
    { unfold mark_market, bind, store_getAlerts, store_saveAlerts, ret. simpl.
      destruct (stored (db w) k); reflexivity. }
    destruct (mark_market_spec k ps w) as [Hres _].
    destruct (mark_market (k, ps) w) as [res w1]. simpl in *. subst res.
    rewrite IH. exact Hh. }
  intros m.
  assert (stored (db (snd (for_each mark_market (for_in_order acc) w))) m
          = mark_prices (prices_for m evs) (stored (db w) m)) as Hm.
  { rewrite Hdb, (own_Permutation acc _ m Hnd (symmetry (for_in_order_Permutation acc))).
    rewrite Hown. simpl. destruct (prices_for m evs); reflexivity. }
  rewrite Hm. split.
  - rewrite <- (length_fmap price), mark_prices_prices, length_fmap. reflexivity.
  - intros i a Ha. rewrite mark_prices_lookup, Ha, hit_prices_for. reflexivity.
Qed.

Lemma safe_markets (evs : list TriggerEvent) :
  forallb (fun ev => match well_formed ev with
                     | Some (m, _) => negb (inherited_key m)
                     | None => true
                     end) evs = true ->
  forall ev m p, ev ∈ evs -> well_formed ev = Some (m, p) -> inherited_key m = false.
Proof.
  intros Hall ev m p Hin Hwf. rewrite forallb_forall in Hall.
  apply list_elem_of_In in Hin. specialize (Hall ev Hin). rewrite Hwf in Hall.
  apply negb_true_iff. exact Hall.
Qed.

Lemma markAlertsAsTriggered_marks_witness :
  stored (db (snd (markAlertsAsTriggered Sample.triggers Sample.stocked))) "X"
    = [Sample.at_90; set_triggered true Sample.at_100; Sample.at_100].
Proof.
  pose proof (markAlertsAsTriggered_marks Sample.triggers Sample.stocked
                (safe_markets Sample.triggers eq_refl)) as (_ & _ & Hm).
  destruct (Hm "X") as [Hlen Hat].
  pose proof (Hat 0 _ eq_refl) as H0.
  pose proof (Hat 1 _ eq_refl) as H1.
  pose proof (Hat 2 _ eq_refl) as H2.
  destruct (stored (db (snd (markAlertsAsTriggered Sample.triggers Sample.stocked))) "X")
    as [|x0 [|x1 [|x2 [|x3 l]]]]; try discriminate.
  injection H0 as ->. injection H1 as ->. injection H2 as ->. reflexivity.
Defined.

(** C2 (where the code departs from it).  When the first event of the list
    has a numeric price and, as its market, the name of a member of
    [Object.prototype], the read [acc[market]] finds the inherited member, no
    array is created for the market, and the call of [push] throws: the
    method rejects with a TypeError, and nothing is loaded, marked or saved. *)
Theorem markAlertsAsTriggered_inherited_market (k : string) (p : float) (d : JsVal)
    (rest : list TriggerEvent) (w : World) :
  inherited_key k = true ->
  markAlertsAsTriggered (mkTrigger (VNum p) (Some k) d :: rest) w
    = (Throw (TypeError "acc[market].push is not a function"), w).
Proof.
  intros Hk. unfold markAlertsAsTriggered, group. cbn [group_from].
  unfold group_step, get_property. cbn [t_market t_price is_number own].
  rewrite Hk. destruct k as [|c k]; [discriminate|]. reflexivity.
Qed.

Lemma markAlertsAsTriggered_inherited_market_witness :
  inherited_key "constructor" = true /\
  fst (markAlertsAsTriggered [Sample.odd_trigger] Sample.stocked)
    = Throw (TypeError "acc[market].push is not a function").
Proof.
  split; [reflexivity|].
  exact (f_equal fst (markAlertsAsTriggered_inherited_market "constructor" 100%float
                        VUndefined [] Sample.stocked eq_refl)).
Defined.

(** When such an event is among the recovered notifications, [resolve()] is
    never reached: the gate stays pending and a [getAlerts] call that waits
    on it is never served. *)
Example recovery_stuck_on_inherited_market :
  let w := run [ASync Sample.granted; AGetAlerts "X";
                AReady 0 (Some [Sample.odd_trigger]); AResume 0] Sample.stocked in
  gates w = [GStuck] /\ pending w = [(0, "X")] /\
  trace w = [ESyncCalled 0; EGetAlertsCalled (Some 0)].
Proof. repeat split; reflexivity. Qed.

(** * More of the service *)

(** ** Reconciliation: what is written, and applying events again *)

Lemma group_from_NoDup (evs : list TriggerEvent) (acc acc' : list (string * list float)) :
  group_from acc evs = Ok acc' -> NoDup acc.*1 -> NoDup acc'.*1.
Proof.
  revert acc. induction evs as [|ev evs IH]; intros acc; cbn [group_from].
  - intros [= <-] Hnd. exact Hnd.
  - unfold group_step.
    destruct (t_market ev) as [k|]; [|apply IH].
    destruct (is_number (t_price ev)) as [p|]; [|apply IH].
    destruct (truthy_str k); [|apply IH].
    unfold get_property. destruct (own acc k) as [ps|] eqn:Hk.
    + intros Hg Hnd. apply (IH _ Hg). rewrite keys_push_price. exact Hnd.
    + destruct (inherited_key k); [discriminate|].
      intros Hg Hnd. apply (IH _ Hg). rewrite keys_push_price, fmap_app. simpl.
      apply NoDup_app. split; [exact Hnd|]. split; [|apply NoDup_singleton].
      intros x Hx Hx'. apply list_elem_of_singleton in Hx'. subst x.
      apply own_None in Hk. contradiction.
Qed.

Lemma saved_app (t1 t2 : list Effect) : saved (t1 ++ t2) = saved t1 ++ saved t2.
Proof. apply omap_app. Qed.

Lemma loaded_app (t1 t2 : list Effect) : loaded (t1 ++ t2) = loaded t1 ++ loaded t2.
Proof. apply omap_app. Qed.

(** A turn of the loop writes its market when the market has stored alerts,
    and writes nothing otherwise. *)
Lemma mark_market_effect (k : string) (ps : list float) (w : World) :
  let w' := snd (mark_market (k, ps) w) in
  (forall m, db w' !! m
             = if String.eqb k m
               then match stored (db w) m with
                    | [] => db w !! m
                    | a :: l => Some (mark_prices ps (a :: l))
                    end
               else db w !! m) /\
  saved (trace w') = saved (trace w) ++ match stored (db w) k with [] => [] | _ => [k] end /\
  loaded (trace w') = loaded (trace w) ++ [k] /\
  emitted (trace w') = emitted (trace w).
Proof.
  unfold mark_market, bind, store_getAlerts, store_saveAlerts, ret.
  simpl. destruct (stored (db w) k) as [|a alerts] eqn:Hk; simpl.
  - rewrite saved_app, loaded_app, emitted_app. simpl. rewrite !app_nil_r.
    split; [|split; [|split]]; try reflexivity.
    intros m. destruct (String.eqb_spec k m) as [<-|_]; [rewrite Hk|]; reflexivity.
  - rewrite !saved_app, !loaded_app, !emitted_app. simpl. rewrite !app_nil_r.
    split; [|split; [|split]]; try reflexivity. intros m.
    destruct (String.eqb_spec k m) as [<-|Hne].
    + rewrite lookup_insert_eq, Hk. reflexivity.
    + rewrite lookup_insert_ne; [reflexivity | exact Hne].
Qed.

Lemma stored_lookup (d d' : gmap string (list MarketAlert)) (m : string) :
  d' !! m = d !! m -> stored d' m = stored d m.
Proof. unfold stored. intros ->. reflexivity. Qed.

Lemma for_each_mark_market_effect (entries : list (string * list float)) (w : World) :
  NoDup entries.*1 ->
  let w' := snd (for_each mark_market entries w) in
  (forall m, db w' !! m
             = match own entries m, stored (db w) m with
               | Some ps, a :: l => Some (mark_prices ps (a :: l))
               | _, _ => db w !! m
               end) /\
  saved (trace w') = saved (trace w) ++ List.filter (has_alerts (db w)) entries.*1 /\
  loaded (trace w') = loaded (trace w) ++ entries.*1 /\
  emitted (trace w') = emitted (trace w).
Proof.
  revert w. induction entries as [|[k ps] entries IH]; intros w Hnd.
  - simpl. rewrite !app_nil_r. repeat split.
  - csimpl in Hnd. apply NoDup_cons in Hnd as [Hk Hnd]. cbn [for_each]. unfold bind.
    destruct (mark_market_effect k ps w) as (Hdb & Hsv & Hld & Hem).
    destruct (mark_market_spec k ps w) as [Hres _].
    destruct (mark_market (k, ps) w) as [res w1]. simpl in Hres, Hdb, Hsv, Hld, Hem.
    subst res. destruct (IH w1 Hnd) as (Hdb' & Hsv' & Hld' & Hem'). cbn zeta in *.
    split; [|split; [|split]].
    + intros m. rewrite Hdb'. cbn [own].
      destruct (String.eqb_spec k m) as [<-|Hne].
      * apply own_None in Hk. rewrite Hk, Hdb, String.eqb_refl.
        destruct (stored (db w1) k); reflexivity.
      * assert (db w1 !! m = db w !! m) as Hm.
        { rewrite Hdb. apply String.eqb_neq in Hne. rewrite Hne. reflexivity. }
        rewrite (stored_lookup _ _ _ Hm), Hm. reflexivity.
    + rewrite Hsv', Hsv, <- app_assoc. f_equal. csimpl. unfold has_alerts at 2.
      assert (List.filter (has_alerts (db w1)) entries.*1
              = List.filter (has_alerts (db w)) entries.*1) as ->.
      { apply List.filter_ext_in. intros m Hin. unfold has_alerts.
        assert (db w1 !! m = db w !! m) as Hm.
        { rewrite Hdb. destruct (String.eqb_spec k m) as [<-|Hne]; [|reflexivity].
          exfalso. apply Hk. apply list_elem_of_In. exact Hin. }
        rewrite (stored_lookup _ _ _ Hm). reflexivity. }
      destruct (stored (db w) k); reflexivity.
    + rewrite Hld', Hld, <- app_assoc. reflexivity.
    + rewrite Hem'. exact Hem.
Qed.

(** Marking twice is marking once. *)
Lemma mark_prices_idempotent (ps : list float) (alerts : list MarketAlert) :
  mark_prices ps (mark_prices ps alerts) = mark_prices ps alerts.
Proof.
  apply list_eq. intros i. rewrite !mark_prices_lookup.
  assert (forall q, first_at (mark_prices ps alerts) i q = first_at alerts i q) as Hsame.
  { intros q. unfold first_at.
    rewrite (first_match_prices q alerts _ (mark_prices_prices ps alerts)). reflexivity. }
  rewrite (existsb_same _ _ ps Hsame).
  destruct (alerts !! i) as [a|]; [|reflexivity]. simpl.
  destruct (existsb (first_at alerts i) ps); reflexivity.
Qed.

Lemma mark_prices_length (ps : list float) (alerts : list MarketAlert) :
  length (mark_prices ps alerts) = length alerts.
Proof. rewrite <- (length_fmap price), mark_prices_prices, length_fmap. reflexivity. Qed.

(** X2.  Applying a list of trigger events a second time changes nothing:
    the second call ends as the first did and leaves the store exactly as the
    first call left it. *)
Theorem markAlertsAsTriggered_idempotent (evs : list TriggerEvent) (w : World) :
  let w1 := snd (markAlertsAsTriggered evs w) in
  fst (markAlertsAsTriggered evs w1) = fst (markAlertsAsTriggered evs w) /\
  db (snd (markAlertsAsTriggered evs w1)) = db w1.
Proof.
  unfold markAlertsAsTriggered.
  destruct (group evs) as [acc|e|] eqn:Hg; [|split; reflexivity..].
  assert (NoDup (for_in_order acc).*1) as Hnd.
  { rewrite for_in_order_Permutation. exact (group_from_NoDup _ _ _ Hg NoDup_nil_2). }
  cbn zeta.
  destruct (for_each_mark_market (for_in_order acc) w Hnd) as [Hres _].
  destruct (for_each_mark_market_effect (for_in_order acc) w Hnd) as (Hdb & _).
  set (w1 := snd (for_each mark_market (for_in_order acc) w)) in *.
  destruct (for_each_mark_market (for_in_order acc) w1 Hnd) as [Hres1 _].
  destruct (for_each_mark_market_effect (for_in_order acc) w1 Hnd) as (Hdb1 & _).
  split; [rewrite Hres1, Hres; reflexivity|].
  apply map_eq. intros m. cbn zeta in Hdb, Hdb1. rewrite Hdb1.
  destruct (own (for_in_order acc) m) as [ps|] eqn:Hown; [|reflexivity].
  destruct (stored (db w1) m) as [|a1 l1] eqn:Hs1; [reflexivity|].
  assert (stored (db w1) m = mark_prices ps (stored (db w) m)) as Hm.
  { unfold stored at 1. rewrite Hdb, Hown.
    destruct (stored (db w) m) as [|a l] eqn:Hs; [|reflexivity].
    fold (stored (db w) m). rewrite Hs. clear.
    unfold mark_prices. induction ps as [|p ps IH]; [reflexivity | exact IH]. }
  rewrite <- Hs1, Hm, mark_prices_idempotent.
  rewrite Hdb, Hown. destruct (stored (db w) m) as [|a l] eqn:Hs; [|reflexivity].
  exfalso. rewrite Hm in Hs1. apply (f_equal length) in Hs1.
  rewrite mark_prices_length in Hs1. discriminate.
Qed.

Lemma own_is_Some (acc : list (string * list float)) (k : string) :
  k ∈ acc.*1 <-> own acc k <> None.
Proof.
  split.
  - intros Hin Hnone. apply own_None in Hnone. contradiction.
  - intros Hsome. destruct (decide (k ∈ acc.*1)) as [Hin|Hnin]; [exact Hin|].
    exfalso. apply Hsome. apply own_None. exact Hnin.
Qed.

(** X3.  For events none of which names a member of [Object.prototype]:
    [markAlertsAsTriggered] loads each market that has a kept event exactly
    once, writes exactly once each of those whose stored list is not empty,
    leaves every other entry of the store as it is (no entry is created for
    a market without stored alerts), and publishes nothing on the bus. *)
Theorem markAlertsAsTriggered_writes (evs : list TriggerEvent) (w : World) :
  (forall ev m p, ev ∈ evs -> well_formed ev = Some (m, p) -> inherited_key m = false) ->
  let w' := snd (markAlertsAsTriggered evs w) in
  exists read written,
    loaded (trace w') = loaded (trace w) ++ read /\
    saved (trace w') = saved (trace w) ++ written /\
    NoDup read /\ NoDup written /\
    (forall m, m ∈ read <-> prices_for m evs <> []) /\
    (forall m, m ∈ written <-> prices_for m evs <> [] /\ stored (db w) m <> []) /\
    (forall m, m ∉ written -> db w' !! m = db w !! m) /\
    emitted (trace w') = emitted (trace w).
Proof.
  intros Hsafe w'. subst w'. unfold markAlertsAsTriggered, group.
  destruct (group_from_spec evs [] Hsafe NoDup_nil_2) as (acc & -> & Hnd & Hown).
  assert (NoDup (for_in_order acc).*1) as Hnd'.
  { rewrite for_in_order_Permutation. exact Hnd. }
  destruct (for_each_mark_market_effect (for_in_order acc) w Hnd') as (Hdb & Hsv & Hld & Hem).
  cbn zeta in *.
  assert (forall m, own (for_in_order acc) m <> None <-> prices_for m evs <> []) as Hkeys.
  { intros m.
    rewrite (own_Permutation acc _ m Hnd (symmetry (for_in_order_Permutation acc))), Hown.
    simpl. destruct (prices_for m evs); split; congruence. }
  assert (forall m, has_alerts (db w) m = true <-> stored (db w) m <> []) as Hhas.
  { intros m. unfold has_alerts. destruct (stored (db w) m); split; congruence. }
  exists (for_in_order acc).*1, (List.filter (has_alerts (db w)) (for_in_order acc).*1).
  split; [exact Hld|]. split; [exact Hsv|]. split; [exact Hnd'|].
  split; [apply NoDup_ListNoDup, List.NoDup_filter, NoDup_ListNoDup; exact Hnd'|].
  split; [intros m; rewrite own_is_Some; apply Hkeys|].
  split.
  - intros m. rewrite list_elem_of_In, List.filter_In, <- list_elem_of_In.
    rewrite own_is_Some, Hkeys, Hhas. reflexivity.
  - split; [|exact Hem].
    intros m Hm. rewrite Hdb.
    destruct (own (for_in_order acc) m) as [ps|] eqn:Hm'; [|reflexivity].
    destruct (stored (db w) m) as [|a l] eqn:Hs; [reflexivity|].
    exfalso. apply Hm. rewrite list_elem_of_In, List.filter_In, <- list_elem_of_In.
    split.
    + apply own_is_Some. congruence.
    + apply Hhas. congruence.
Qed.

Lemma markAlertsAsTriggered_writes_witness :
  emitted (trace (snd (markAlertsAsTriggered Sample.triggers Sample.stocked)))
    = emitted (trace Sample.stocked).
Proof.
  destruct (markAlertsAsTriggered_writes Sample.triggers Sample.stocked
              (safe_markets Sample.triggers eq_refl))
    as (read & written & _ & _ & _ & _ & _ & _ & _ & Hem).
  exact Hem.
Defined.

(** ** The gate over a run: listeners, settled promises, stuck calls *)

Lemma reachable_run (acts : list Action) (w : World) :
  reachable w -> reachable (run acts w).
Proof.
  intros (h & d & acts0 & ->). exists h, d, (acts0 ++ acts).
  unfold run. rewrite fold_left_app. reflexivity.
Qed.

Lemma fulfilled_snoc (gs : list GateState) (st : GateState) :
  fulfilled (gs ++ [st]) = fulfilled gs + (if is_fulfilled st then 1 else 0).
Proof.
  unfold fulfilled. rewrite List.filter_app, length_app. simpl.
  destruct (is_fulfilled st); reflexivity.
Qed.

Lemma fulfilled_insert (gs : list GateState) (g : nat) (st st' : GateState) :
  gs !! g = Some st ->
  fulfilled (<[g := st']> gs) + (if is_fulfilled st then 1 else 0)
    = fulfilled gs + (if is_fulfilled st' then 1 else 0).
Proof.
  unfold fulfilled. revert g. induction gs as [|x gs IH]; intros g Hg; [discriminate|].
  destruct g as [|g]; simpl in *.
  - injection Hg as ->. destruct (is_fulfilled st), (is_fulfilled st'); simpl; lia.
  - specialize (IH g Hg). destruct (is_fulfilled x); simpl; lia.
Qed.

(** *** One listener, one message *)

Lemma for_in_order_singleton (e : string * list float) : for_in_order [e] = [e].
Proof.
  unfold for_in_order, indexed, is_named. simpl.
  destruct (array_index e.1); reflexivity.
Qed.

(** The grouping of a single event. *)
Lemma group_singleton (data : TriggerEvent) :
  group [data]
    = match well_formed data with
      | Some (m, p) =>
          if inherited_key m then Throw (not_a_function "acc[market].push")
          else Ok [(m, [p])]
      | None => Ok []
      end.
Proof.
  unfold group, well_formed. cbn [group_from]. unfold group_step, get_property.
  destruct (t_market data) as [m|]; [|reflexivity].
  destruct (is_number (t_price data)) as [p|]; [|reflexivity].
  destruct (truthy_str m); [|reflexivity]. cbn [own].
  destruct (inherited_key m); [reflexivity|].
  simpl. rewrite String.eqb_refl. reflexivity.
Qed.

Lemma mark_prices_singleton (p : float) (alerts : list MarketAlert) :
  mark_prices [p] alerts = mark_first p alerts.
Proof. reflexivity. Qed.

(** X4.  What one ['message'] listener does with a message.  The event is
    published on the bus, once, whatever becomes of the marking.  For an
    event with a market and a numeric price the store is asked for the
    market's alerts first, the event is published next, and the list is
    written back, marked, after that -- when it is not empty.  An event that
    is not well formed, or whose market names a member of
    [Object.prototype], is published and nothing else.  In every case the
    store ends as [markAlertsAsTriggered([data])] leaves it. *)
Theorem on_message_publishes_then_saves (data : TriggerEvent) (w : World) :
  emitted (trace (on_message data w)) = emitted (trace w) ++ [EvTrigger data] /\
  db (on_message data w) = db (snd (markAlertsAsTriggered [data] w)) /\
  heap (on_message data w) = heap w /\
  trace (on_message data w)
    = trace w ++
      match well_formed data with
      | Some (m, p) =>
          if inherited_key m then [EEmit (EvTrigger data)]
          else [EStoreGet m; EEmit (EvTrigger data)] ++
               match stored (db w) m with
               | [] => []
               | a :: l => [EStoreSave m (mark_first p (a :: l))]
               end
      | None => [EEmit (EvTrigger data)]
      end.
Proof.
  unfold on_message, markAlertsAsTriggered. rewrite group_singleton.
  destruct (well_formed data) as [[m p]|].
  - destruct (inherited_key m).
    + simpl. rewrite emitted_app. repeat split; reflexivity.
    + rewrite for_in_order_singleton.
      unfold store_getAlerts, emit, log, mark_loaded, mark_market, for_each, bind, ret,
        store_getAlerts, store_saveAlerts.
      cbn [fst snd]. rewrite mark_prices_singleton.
      destruct (stored (db w) m) as [|a l]; cbn; rewrite ?emitted_app; cbn;
        rewrite <- ?app_assoc; repeat split; try reflexivity.
      all: rewrite ?emitted_app; cbn; rewrite ?app_nil_r; reflexivity.
  - simpl. rewrite emitted_app. repeat split; reflexivity.
Qed.

Lemma on_message_emitted (data : TriggerEvent) (w : World) :
  emitted (trace (on_message data w)) = emitted (trace w) ++ [EvTrigger data].
Proof.
  unfold on_message. rewrite group_singleton.
  destruct (well_formed data) as [[m p]|].
  - destruct (inherited_key m).
    + simpl. rewrite emitted_app. reflexivity.
    + rewrite for_in_order_singleton.
      unfold store_getAlerts, emit, log, mark_loaded, mark_market, for_each, bind, ret,
        store_getAlerts, store_saveAlerts.
      cbn [fst snd].
      destruct (stored (db w) m) as [|a l]; cbn; rewrite !emitted_app; cbn;
        rewrite ?app_nil_r; reflexivity.
  - simpl. rewrite emitted_app. reflexivity.
Qed.

Lemma messages_emitted (data : TriggerEvent) (n : nat) (w : World) :
  emitted (trace (Nat.iter n (on_message data) w))
    = emitted (trace w) ++ replicate n (EvTrigger data).
Proof.
  induction n as [|n IH]; [simpl; rewrite app_nil_r; reflexivity|].
  rewrite Nat.iter_succ, on_message_emitted, IH, <- app_assoc. f_equal.
  clear. induction n as [|n IH]; [reflexivity|].
  change (EvTrigger data :: (replicate n (EvTrigger data) ++ [EvTrigger data])
          = EvTrigger data :: replicate (S n) (EvTrigger data)).
  rewrite IH. reflexivity.
Qed.

(** One ['message'] listener per fulfilled promise. *)
Lemma listeners_fulfilled (w : World) : reachable w -> listeners w = fulfilled (gates w).
Proof.
  intros Hw. induction Hw as [h d | w a _ IH] using reachable_ind; [reflexivity|].
  destruct a as [env | g ns | data | m | i | env op]; simpl.
  - unfold syncTriggeredAlerts. simpl. rewrite fulfilled_snoc, IH.
    destruct (platform env); simpl; lia.
  - unfold recover. destruct (gates w !! g) as [[| | |e]|] eqn:Hg; try exact IH.
    destruct ns as [evs|].
    + pose proof (quiet_markAlertsAsTriggered evs w) as (_ & Hgs & Hl & _).
      destruct (markAlertsAsTriggered evs w) as [[u|e|] w1]; simpl in *.
      * rewrite <- Hgs in Hg. pose proof (fulfilled_insert _ _ _ GFulfilled Hg) as Hf.
        simpl in Hf. rewrite Hgs in *. lia.
      * rewrite <- Hgs in Hg. pose proof (fulfilled_insert _ _ _ GStuck Hg) as Hf.
        simpl in Hf. rewrite Hgs in *. lia.
      * rewrite <- Hgs in Hg. pose proof (fulfilled_insert _ _ _ GStuck Hg) as Hf.
        simpl in Hf. rewrite Hgs in *. lia.
    + simpl. pose proof (fulfilled_insert _ _ _ GStuck Hg) as Hf. simpl in Hf. lia.
  - destruct (frame_messages data (listeners w) w) as (_ & -> & -> & _). exact IH.
  - unfold getAlerts_call. destruct (_promiseOfSync w); exact IH.
  - unfold getAlerts_resume. destruct (pending w !! i) as [[g m]|]; [|exact IH].
    destruct (gates w !! g) as [[| | |e]|]; exact IH.
  - destruct (quiet_perform env op w) as (_ & -> & -> & _). exact IH.
Qed.

(** X5.  In every run the service has one ['message'] listener per sync
    promise that has fulfilled, and a push message is published on the bus
    once per listener: after the sync entry point has run to its end [n]
    times, every message is published [n] times. *)
Theorem message_published_per_fulfilled_gate (data : TriggerEvent) (w : World) :
  reachable w ->
  listeners w = fulfilled (gates w) /\
  emitted (trace (step (AMessage data) w))
    = emitted (trace w) ++ replicate (fulfilled (gates w)) (EvTrigger data).
Proof.
  intros Hw. pose proof (listeners_fulfilled w Hw) as Hl.
  split; [exact Hl|]. simpl. rewrite messages_emitted, Hl. reflexivity.
Qed.

Lemma message_published_per_fulfilled_gate_witness :
  reachable (run [ASync Sample.granted; AReady 0 (Some []);
                  ASync Sample.granted; AReady 1 (Some [])] Sample.fresh) /\
  listeners (run [ASync Sample.granted; AReady 0 (Some []);
                  ASync Sample.granted; AReady 1 (Some [])] Sample.fresh)
    = fulfilled (gates (run [ASync Sample.granted; AReady 0 (Some []);
                             ASync Sample.granted; AReady 1 (Some [])] Sample.fresh)).
Proof.
  assert (reachable (run [ASync Sample.granted; AReady 0 (Some []);
                          ASync Sample.granted; AReady 1 (Some [])] Sample.fresh)) as Hw.
  { eexists _, _, _. reflexivity. }
  split; [exact Hw|].
  exact (proj1 (message_published_per_fulfilled_gate Sample.odd_trigger _ Hw)).
Defined.

(** After two syncs that ran to their end, a message is published twice. *)
Example message_published_twice :
  emitted (trace (run [ASync Sample.granted; AReady 0 (Some []);
                       ASync Sample.granted; AReady 1 (Some []);
                       AMessage Sample.odd_trigger] Sample.stocked))
    = [EvTrigger Sample.odd_trigger; EvTrigger Sample.odd_trigger].
Proof. vm_compute. reflexivity. Qed.

Lemma run_settled (acts : list Action) (w : World) (g : nat) (st : GateState) :
  gates w !! g = Some st -> st <> GWaiting -> gates (run acts w) !! g = Some st.
Proof.
  revert w. induction acts as [|a acts IH]; intros w Hg Hst; [exact Hg|].
  apply IH; [|exact Hst]. apply step_settled; assumption.
Qed.

Lemma elem_of_delete_other {A} (l : list A) (i : nat) (x y : A) :
  x ∈ l -> l !! i = Some y -> x <> y -> x ∈ delete i l.
Proof.
  revert i. induction l as [|z l IH]; intros i Hin Hi Hne; [inversion Hin|].
  destruct i as [|i]; simpl in *.
  - injection Hi as ->. apply elem_of_cons in Hin as [->|Hin]; [contradiction | exact Hin].
  - apply elem_of_cons in Hin as [->|Hin]; [left | right; eapply IH; eassumption].
Qed.

Lemma step_suspended (a : Action) (w : World) (g : nat) (m : string) :
  gates w !! g = Some GStuck -> (g, m) ∈ pending w -> (g, m) ∈ pending (step a w).
Proof.
  intros Hg Hin.
  destruct a as [env | g' ns | data | m' | i | env op]; simpl.
  - exact Hin.
  - unfold recover. destruct (gates w !! g') as [[| | |e]|]; try exact Hin.
    destruct ns as [evs|]; [|exact Hin].
    pose proof (quiet_markAlertsAsTriggered evs w) as (_ & _ & _ & Hp & _).
    destruct (markAlertsAsTriggered evs w) as [[u|e|] w1]; simpl in *; rewrite Hp; exact Hin.
  - destruct (frame_messages data (listeners w) w) as (_ & _ & _ & -> & _). exact Hin.
  - unfold getAlerts_call. destruct (_promiseOfSync w); simpl; [|exact Hin].
    apply elem_of_app. left. exact Hin.
  - unfold getAlerts_resume. destruct (pending w !! i) as [[g' m']|] eqn:Hi; [|exact Hin].
    destruct (gates w !! g') as [[| | |e]|] eqn:Hg'; try exact Hin; simpl;
      (eapply elem_of_delete_other; [exact Hin | exact Hi | intros [= <- <-]; congruence]).
  - destruct (quiet_perform env op w) as (_ & _ & _ & -> & _). exact Hin.
Qed.

(** X6.  Once the recovery of a sync has failed (the notifications could not
    be read, or the marking threw), its promise stays pending for the rest
    of the run: no [getAlerts] call that read this gate is ever served, and
    the calls suspended on it stay suspended. *)
Theorem stuck_gate_never_serves (w : World) (g : nat) (acts : list Action) :
  reachable w ->
  gates w !! g = Some GStuck ->
  gates (run acts w) !! g = Some GStuck /\
  (forall m, EGetAlertsReturned (Some g) m ∉ trace (run acts w)) /\
  (forall m, (g, m) ∈ pending w -> (g, m) ∈ pending (run acts w)).
Proof.
  intros Hw Hg. split; [|split].
  - apply run_settled; [exact Hg | discriminate].
  - intros m Hin.
    pose proof (reachable_run acts w Hw) as Hw'.
    apply list_elem_of_split in Hin as (t1 & t2 & Heq).
    destruct (gate_invariant_reachable _ Hw') as [Hserved _].
    destruct (Hserved t1 (Some g) m t2 Heq) as (t0 & -> & _ & _ & Hful).
    assert (EGateFulfilled g ∈ trace (run acts w)) as Hful'.
    { rewrite Heq. apply elem_of_app. left. apply elem_of_app. left. exact Hful. }
    apply (fulfilment_recorded _ Hw') in Hful'.
    rewrite (run_settled acts w g GStuck Hg) in Hful'; discriminate.
  - intros m. revert w Hw Hg. induction acts as [|a acts IH]; intros w Hw Hg Hin; [exact Hin|].
    apply IH.
    + apply (reachable_run [a] w Hw).
    + apply step_settled; [exact Hg | discriminate].
    + apply step_suspended; assumption.
Qed.

Lemma stuck_gate_never_serves_witness :
  reachable (run [ASync Sample.granted; AGetAlerts "X";
                  AReady 0 (Some [Sample.odd_trigger])] Sample.stocked) /\
  (0, "X") ∈ pending (run [AResume 0; AGetAlerts "X"; AResume 0]
                        (run [ASync Sample.granted; AGetAlerts "X";
                              AReady 0 (Some [Sample.odd_trigger])] Sample.stocked)).
Proof.
  assert (reachable (run [ASync Sample.granted; AGetAlerts "X";
                          AReady 0 (Some [Sample.odd_trigger])] Sample.stocked)) as Hw.
  { eexists _, _, _. reflexivity. }
  split; [exact Hw|].
  apply (proj2 (proj2 (stuck_gate_never_serves _ 0 [AResume 0; AGetAlerts "X"; AResume 0]
                         Hw eq_refl)) "X").
  apply list_elem_of_here.
Defined.

(** ** The markets of a pane *)

Lemma add_index_spec (st : PanesState) (indexes : list string) (k : string) :
  NoDup indexes ->
  NoDup (add_index st indexes k) /\
  (forall x, x ∈ add_index st indexes k <-> x ∈ indexes \/ listener_local st k = Some x) /\
  (exists more, add_index st indexes k = indexes ++ more).
Proof.
  intros Hnd. unfold add_index.
  destruct (listener_local st k) as [local|].
  - destruct (existsb (String.eqb local) indexes) eqn:Hex.
    + apply existsb_exists in Hex as (y & Hy & Heq). apply String.eqb_eq in Heq. subst y.
      apply list_elem_of_In in Hy.
      split; [exact Hnd|]. split; [|exists []; rewrite app_nil_r; reflexivity].
      intros x. split; [auto|]. intros [Hx | [= <-]]; assumption.
    + assert (local ∉ indexes) as Hnin.
      { intros Hin. apply list_elem_of_In in Hin.
        assert (existsb (String.eqb local) indexes = true) as Hex'.
        { apply existsb_exists. exists local. split; [exact Hin | apply String.eqb_refl]. }
        congruence. }
      split; [|split; [|exists [local]; reflexivity]].
      * apply NoDup_app. split; [exact Hnd|]. split; [|apply NoDup_singleton].
        intros x Hx Hx'. apply list_elem_of_singleton in Hx'. subst x. contradiction.
      * intros x. rewrite elem_of_app, list_elem_of_singleton.
        split; [intros [Hx | ->]; auto | intros [Hx | [= <-]]; auto].
  - split; [exact Hnd|]. split; [|exists []; rewrite app_nil_r; reflexivity].
    intros x. split; [auto | intros [Hx | Hx]; [exact Hx | discriminate]].
Qed.

Lemma fold_add_index_spec (st : PanesState) (markets indexes : list string) :
  NoDup indexes ->
  NoDup (fold_left (add_index st) markets indexes) /\
  (forall x, x ∈ fold_left (add_index st) markets indexes
             <-> x ∈ indexes \/ exists k, k ∈ markets /\ listener_local st k = Some x) /\
  (exists more, fold_left (add_index st) markets indexes = indexes ++ more).
Proof.
  revert indexes. induction markets as [|k markets IH]; intros indexes Hnd; simpl.
  - split; [exact Hnd|]. split; [|exists []; rewrite app_nil_r; reflexivity].
    intros x. split; [auto|]. intros [Hx | (k & Hk & _)]; [exact Hx | inversion Hk].
  - destruct (add_index_spec st indexes k Hnd) as (Hnd1 & Hin1 & more1 & Hmore1).
    destruct (IH _ Hnd1) as (Hnd2 & Hin2 & more2 & Hmore2).
    split; [exact Hnd2|]. split.
    + intros x. rewrite Hin2, Hin1. split.
      * intros [[Hx | Hk] | (k' & Hk' & Hloc)]; [auto | |].
        -- right. exists k. split; [left | exact Hk].
        -- right. exists k'. split; [right; exact Hk' | exact Hloc].
      * intros [Hx | (k' & Hk' & Hloc)]; [auto|].
        apply elem_of_cons in Hk' as [-> | Hk']; [auto|].
        right. exists k'. split; assumption.
    + exists (more1 ++ more2). rewrite Hmore2, Hmore1, <- app_assoc. reflexivity.
Qed.

(** X7.  The indexes [getPaneMarkets] queries hold no duplicate, and are
    exactly the [local] names of the listeners of the pane's markets; the
    first of them is the [local] name of the first market of the pane that
    has a listener. *)
Theorem pane_indexes_distinct (st : PanesState) (markets : list string) :
  NoDup (pane_indexes st markets) /\
  (forall x, x ∈ pane_indexes st markets
             <-> exists k, k ∈ markets /\ listener_local st k = Some x) /\
  head (pane_indexes st markets) = head (omap (listener_local st) markets).
Proof.
  unfold pane_indexes.
  destruct (fold_add_index_spec st markets [] (NoDup_nil_2)) as (Hnd & Hin & _).
  split; [exact Hnd|]. split.
  - intros x. rewrite Hin. split; [intros [Hx | Hk]; [inversion Hx | exact Hk] | auto].
  - clear. induction markets as [|k markets IH]; [reflexivity|].
    simpl. unfold add_index at 2. simpl.
    destruct (listener_local st k) as [local|]; [|exact IH].
    destruct (fold_add_index_spec st markets [local]) as (_ & _ & more & ->).
    { apply NoDup_singleton. }
    reflexivity.
Qed.

(** *** [getAlerts] run to its end *)

Lemma delete_last {A} (l : list A) (x : A) : delete (length l) (l ++ [x]) = l.
Proof.
  induction l as [|y l IH]; [reflexivity|]. simpl. f_equal. exact IH.
Qed.

(** What a whole [getAlerts] does: it reads the store when nothing holds it
    back, and only then; it writes nothing and publishes nothing, and leaves
    the gate as it is. *)
Lemma getAlerts_spec (m : string) (w : World) :
  let r := getAlerts m w in
  _promiseOfSync r.2 = _promiseOfSync w /\ gates r.2 = gates w /\
  db r.2 = db w /\ heap r.2 = heap w /\
  saved (trace r.2) = saved (trace w) /\ emitted (trace r.2) = emitted (trace w) /\
  match _promiseOfSync w with
  | None =>
      r.1 = Ok (stored (db w) m) /\ loaded (trace r.2) = loaded (trace w) ++ [m] /\
      pending r.2 = pending w
  | Some g =>
      match gates w !! g with
      | Some GFulfilled =>
          r.1 = Ok (stored (db w) m) /\ loaded (trace r.2) = loaded (trace w) ++ [m] /\
          pending r.2 = pending w
      | Some (GRejected e) =>
          r.1 = Throw e /\ loaded (trace r.2) = loaded (trace w) /\ pending r.2 = pending w
      | _ =>
          r.1 = Hang /\ loaded (trace r.2) = loaded (trace w) /\
          pending r.2 = pending w ++ [(g, m)]
      end
  end.
Proof.
  unfold getAlerts, getAlerts_call, getAlerts_resume, store_getAlerts.
  destruct (_promiseOfSync w) as [g|] eqn:Hp; cbn [fst snd].
  - cbn [pending with_pending with_trace gates].
    rewrite lookup_app_r, Nat.sub_diag by lia. cbn [lookup list_lookup].
    destruct (gates w !! g) as [[| | |e]|]; cbn;
      rewrite ?delete_last, ?saved_app, ?loaded_app, ?emitted_app; cbn;
      rewrite ?app_nil_r, ?Hp; repeat split; reflexivity.
  - cbn. rewrite !saved_app, !loaded_app, !emitted_app. cbn.
    rewrite ?app_nil_r, ?Hp. repeat split; reflexivity.
Qed.

Lemma gate_open_getAlerts (m : string) (w : World) :
  gate_open w -> gate_open (snd (getAlerts m w)).
Proof.
  destruct (getAlerts_spec m w) as (Hp & Hg & _). cbn zeta in *.
  unfold gate_open. rewrite Hp, Hg. trivial.
Qed.

Lemma collect_world (acc : Accumulator) (index : string) (w : World) :
  snd (collect acc index w) = snd (getAlerts index w).
Proof. unfold collect. destruct (getAlerts index w) as [[alerts|e|] w1]; reflexivity. Qed.

Lemma collect_open (acc : Accumulator) (index : string) (w : World) :
  gate_open w ->
  fst (collect acc index w)
    = Later match acc with
            | Items items => Ok (items ++ stored (db w) index)
            | Later outcome => outcome
            end.
Proof.
  intros Hopen. destruct (getAlerts_spec index w) as (_ & _ & _ & _ & _ & _ & Hr).
  cbn zeta in Hr. unfold collect. unfold gate_open in Hopen.
  destruct (_promiseOfSync w) as [g|]; [rewrite Hopen in Hr|];
    destruct Hr as (Hr & _); destruct (getAlerts index w) as [res w1];
    simpl in Hr; subst res; reflexivity.
Qed.

Lemma reduce_open (indexes : list string) (acc : Accumulator) (w : World) :
  gate_open w ->
  let r := fold_left (fun aw index => collect aw.1 index aw.2) indexes (acc, w) in
  r.1 = match indexes with
        | [] => acc
        | index :: _ =>
            Later match acc with
                  | Items items => Ok (items ++ stored (db w) index)
                  | Later outcome => outcome
                  end
        end /\
  loaded (trace r.2) = loaded (trace w) ++ indexes /\
  db r.2 = db w /\ heap r.2 = heap w /\
  saved (trace r.2) = saved (trace w) /\ emitted (trace r.2) = emitted (trace w) /\
  pending r.2 = pending w.
Proof.
  revert acc w. induction indexes as [|index indexes IH]; intros acc w Hopen.
  - simpl. rewrite app_nil_r. repeat split.
  - cbn [fold_left fst snd].
    pose proof (collect_open acc index w Hopen) as Hfst.
    pose proof (collect_world acc index w) as Hsnd.
    destruct (collect acc index w) as [acc1 w1]. cbn [fst snd] in *. subst acc1 w1.
    destruct (getAlerts_spec index w) as (_ & _ & Hdb1 & Hh1 & Hsv1 & Hem1 & Hr).
    cbn zeta in *.
    assert (loaded (trace (snd (getAlerts index w))) = loaded (trace w) ++ [index] /\
            pending (snd (getAlerts index w)) = pending w) as [Hld1 Hpd1].
    { unfold gate_open in Hopen.
      destruct (_promiseOfSync w) as [g|]; [rewrite Hopen in Hr|];
        destruct Hr as (_ & Hld & Hpd); split; assumption. }
    destruct (IH (Later match acc with
                        | Items items => Ok (items ++ stored (db w) index)
                        | Later outcome => outcome
                        end) _ (gate_open_getAlerts index w Hopen))
      as (Hacc & Hld & Hdb & Hh & Hsv & Hem & Hpd).
    cbn zeta in *. split; [|split; [|split; [|split; [|split; [|split]]]]].
    + rewrite Hacc. destruct indexes; reflexivity.
    + rewrite Hld, Hld1, <- app_assoc. reflexivity.
    + rewrite Hdb. exact Hdb1.
    + rewrite Hh. exact Hh1.
    + rewrite Hsv. exact Hsv1.
    + rewrite Hem. exact Hem1.
    + rewrite Hpd. exact Hpd1.
Qed.

(** X8.  With the gate open (absent or fulfilled), [getPaneMarkets] loads
    the alerts of every index of the pane, in order, and writes nothing; but
    the promise it returns settles to the alerts of the first index alone:
    from the second turn of the [reduce] on, [acc] is the promise of the
    turn before, and what is pushed onto it is lost. *)
Theorem getPaneMarkets_first_index_only (st : PanesState) (paneId : string)
    (markets : list string) (w : World) :
  pane_markets st paneId = Some markets ->
  gate_open w ->
  let w' := snd (getPaneMarkets st paneId w) in
  (exists acc,
     fst (getPaneMarkets st paneId w) = Ok acc /\
     awaited acc = Ok match pane_indexes st markets with
                      | [] => []
                      | index :: _ => stored (db w) index
                      end) /\
  loaded (trace w') = loaded (trace w) ++ pane_indexes st markets /\
  saved (trace w') = saved (trace w) /\
  db w' = db w /\
  pending w' = pending w.
Proof.
  intros Hpane Hopen w'. subst w'. unfold getPaneMarkets. rewrite Hpane.
  destruct (reduce_open (pane_indexes st markets) (Items []) w Hopen)
    as (Hacc & Hld & Hdb & _ & Hsv & _ & Hpd).
  cbn zeta in *. cbn [fst snd].
  split; [|split; [exact Hld | split; [exact Hsv | split; [exact Hdb | exact Hpd]]]].
  eexists. split; [reflexivity|]. rewrite Hacc.
  destruct (pane_indexes st markets); reflexivity.
Qed.

Lemma getPaneMarkets_first_index_only_witness :
  gate_open Sample.stocked /\
  loaded (trace (snd (getPaneMarkets Sample.panes "chart" Sample.stocked)))
    = loaded (trace Sample.stocked) ++ pane_indexes Sample.panes ["X"; "ETH-USD"; "X"].
Proof.
  split; [exact I|].
  exact (proj1 (proj2 (getPaneMarkets_first_index_only Sample.panes "chart"
                         ["X"; "ETH-USD"; "X"] Sample.stocked eq_refl I))).
Defined.

(** A pane with two markets: the alerts of both are loaded, those of the
    first one are returned. *)
Example getPaneMarkets_of_two_markets :
  pane_indexes Sample.panes ["X"; "ETH-USD"; "X"] = ["X"; "ETH-USD"] /\
  awaited_result (getPaneMarkets Sample.panes "chart" Sample.both)
    = Ok [Sample.at_90; Sample.at_100; Sample.at_100] /\
  loaded (trace (snd (getPaneMarkets Sample.panes "chart" Sample.both))) = ["X"; "ETH-USD"].
Proof. repeat split; reflexivity. Qed.

Lemma collect_closed (acc : Accumulator) (index : string) (w : World) (g : nat)
    (st : GateState) :
  _promiseOfSync w = Some g -> gates w !! g = Some st -> st <> GFulfilled ->
  fst (collect acc index w) = Later match st with GRejected e => Throw e | _ => Hang end /\
  loaded (trace (snd (collect acc index w))) = loaded (trace w).
Proof.
  intros Hp Hg Hst. rewrite collect_world.
  destruct (getAlerts_spec index w) as (_ & _ & _ & _ & _ & _ & Hr).
  cbn zeta in Hr. rewrite Hp, Hg in Hr. unfold collect.
  destruct (getAlerts index w) as [res w1]. cbn [fst snd] in *.
  destruct st as [| | |e]; try contradiction; destruct Hr as (-> & Hld & _);
    split; (reflexivity || exact Hld).
Qed.

Lemma reduce_closed (indexes : list string) (out : Result (list MarketAlert)) (w : World)
    (g : nat) (st : GateState) :
  _promiseOfSync w = Some g -> gates w !! g = Some st -> st <> GFulfilled ->
  out = match st with GRejected e => Throw e | _ => Hang end ->
  let r := fold_left (fun aw index => collect aw.1 index aw.2) indexes (Later out, w) in
  r.1 = Later out /\ loaded (trace r.2) = loaded (trace w) /\ db r.2 = db w.
Proof.
  intros Hp Hg Hst ->. revert w Hp Hg.
  induction indexes as [|index indexes IH]; intros w Hp Hg; [repeat split|].
  cbn [fold_left fst snd].
  destruct (collect_closed (Later match st with GRejected e => Throw e | _ => Hang end)
              index w g st Hp Hg Hst) as [Hfst Hld].
  pose proof (collect_world (Later match st with GRejected e => Throw e | _ => Hang end)
                index w) as Hsnd.
  destruct (collect _ index w) as [acc1 w1]. cbn [fst snd] in *. subst acc1 w1.
  destruct (getAlerts_spec index w) as (Hp1 & Hg1 & Hdb1 & _). cbn zeta in *.
  destruct (IH (snd (getAlerts index w))) as (Hacc & Hld' & Hdb').
  { rewrite Hp1. exact Hp. }
  { rewrite Hg1. exact Hg. }
  cbn zeta in *. split; [exact Hacc|]. split; [rewrite Hld'; exact Hld|].
  rewrite Hdb'. exact Hdb1.
Qed.

(** X9.  What [getPaneMarkets] does without a look at the store.  For a
    pane that does not exist it throws a TypeError at once.  For a pane none
    of whose markets has a listener it returns the empty array itself,
    whatever the state of the gate.  When the gate is not fulfilled and the
    pane has indexes, the promise it returns stays pending with the gate
    (pending gate) or rejects with the gate's error (rejected gate), and the
    store was neither read nor changed. *)
Theorem getPaneMarkets_without_store (st : PanesState) (paneId : string) (w : World) :
  (pane_markets st paneId = None ->
     getPaneMarkets st paneId w = (Throw (read_of_undefined "markets"), w)) /\
  (forall markets,
     pane_markets st paneId = Some markets ->
     pane_indexes st markets = [] ->
     getPaneMarkets st paneId w = (Ok (Items []), w)) /\
  (forall markets g gs,
     pane_markets st paneId = Some markets ->
     pane_indexes st markets <> [] ->
     _promiseOfSync w = Some g -> gates w !! g = Some gs -> gs <> GFulfilled ->
     fst (getPaneMarkets st paneId w)
       = Ok (Later match gs with GRejected e => Throw e | _ => Hang end) /\
     loaded (trace (snd (getPaneMarkets st paneId w))) = loaded (trace w) /\
     db (snd (getPaneMarkets st paneId w)) = db w).
Proof.
  split; [|split].
  - intros Hpane. unfold getPaneMarkets. rewrite Hpane. reflexivity.
  - intros markets Hpane Hnil. unfold getPaneMarkets. rewrite Hpane, Hnil. reflexivity.
  - intros markets g gs Hpane Hne Hp Hg Hgs. unfold getPaneMarkets. rewrite Hpane.
    destruct (pane_indexes st markets) as [|index indexes]; [contradiction|].
    cbn [fold_left fst snd].
    destruct (collect_closed (Items []) index w g gs Hp Hg Hgs) as [Hfst Hld].
    pose proof (collect_world (Items []) index w) as Hsnd.
    destruct (collect (Items []) index w) as [acc1 w1]. cbn [fst snd] in *. subst acc1 w1.
    destruct (getAlerts_spec index w) as (Hp1 & Hg1 & Hdb1 & _). cbn zeta in *.
    destruct (reduce_closed indexes (match gs with GRejected e => Throw e | _ => Hang end)
                (snd (getAlerts index w)) g gs) as (Hacc & Hld' & Hdb');
      [rewrite Hp1; exact Hp | rewrite Hg1; exact Hg | exact Hgs | reflexivity |].
    cbn zeta in *. rewrite Hacc, Hld', Hdb'. repeat split; assumption.
Qed.

Lemma getPaneMarkets_without_store_witness :
  pane_markets Sample.panes "nowhere" = None /\
  getPaneMarkets Sample.panes "nowhere" Sample.stocked
    = (Throw (read_of_undefined "markets"), Sample.stocked).
Proof.
  split; [reflexivity|].
  exact (proj1 (getPaneMarkets_without_store Sample.panes "nowhere" Sample.stocked) eq_refl).
Defined.

(** ** Decoding the application key *)

Example decode_of_key_text :
  urlBase64ToUint8Array "SGVsbG8_d29ybGQ-"
    = Ok [72; 101; 108; 108; 111; 63; 119; 111; 114; 108; 100; 62]%N /\
  base64url [72; 101; 108; 108; 111; 63; 119; 111; 114; 108; 100; 62]%N
    = "SGVsbG8_d29ybGQ-" /\
  urlBase64ToUint8Array "SGk" = Ok [72; 105]%N /\
  urlBase64ToUint8Array "SA" = Ok [72]%N /\
  urlBase64ToUint8Array "SGVsb" = Throw InvalidCharacterError.
Proof. repeat split; reflexivity. Qed.

Lemma chars_append (s1 s2 : string) :
  String.list_ascii_of_string (s1 +:+ s2)
    = String.list_ascii_of_string s1 ++ String.list_ascii_of_string s2.
Proof. induction s1 as [|c s1 IH]; simpl; [reflexivity | rewrite IH; reflexivity]. Qed.

Lemma chars_length (s : string) :
  length (String.list_ascii_of_string s) = String.length s.
Proof. induction s as [|c s IH]; simpl; [reflexivity | rewrite IH; reflexivity]. Qed.

Lemma chars_repeat (c : ascii) (n : nat) :
  String.list_ascii_of_string (repeat_char c n) = replicate n c.
Proof. induction n as [|n IH]; simpl; [reflexivity | rewrite IH; reflexivity]. Qed.

Lemma chars_replace_all (c d : ascii) (s : string) :
  String.list_ascii_of_string (replace_all c d s)
    = map (fun x => if Ascii.eqb x c then d else x) (String.list_ascii_of_string s).
Proof. induction s as [|x s IH]; simpl; [reflexivity | rewrite IH; reflexivity]. Qed.

(** The characters of the text handed to [atob]: those of the argument,
    made standard, followed by the padding. *)
Lemma base64_of_chars (s : string) :
  String.list_ascii_of_string (base64_of s)
    = map standard (String.list_ascii_of_string s)
      ++ replicate ((4 - String.length s mod 4) mod 4) "="%char.
Proof.
  unfold base64_of, padding.
  rewrite !chars_replace_all, chars_append, chars_repeat, !map_app, map_map.
  f_equal.
  generalize ((4 - String.length s mod 4) mod 4). intros n.
  induction n as [|n IH]; [reflexivity|]. simpl in *. rewrite IH. reflexivity.
Qed.



Lemma padded_length (n : nat) :
  (n + (4 - n mod 4) mod 4) mod 4 = 0 /\ (4 - n mod 4) mod 4 < 4.
Proof.
  split; [|apply Nat.mod_upper_bound; lia].
  pose proof (Nat.mod_upper_bound n 4 ltac:(lia)).
  destruct (n mod 4) as [|[|[|[|r]]]] eqn:E; try lia; simpl (4 - _);
    rewrite Nat.Div0.add_mod, E; reflexivity.
Qed.


(** Induction over a byte sequence three bytes at a time. *)
Lemma list_ind3 {A} (P : list A -> Prop) :
  P [] -> (forall a, P [a]) -> (forall a b, P [a; b]) ->
  (forall a b c rest, P rest -> P (a :: b :: c :: rest)) ->
  forall l, P l.
Proof.
  intros H0 H1 H2 H3 l.
  assert (P l /\ (forall a, P (a :: l)) /\ (forall a b, P (a :: b :: l))) as [H _].
  { induction l as [|x l (IH0 & IH1 & IH2)]; [auto|].
    split; [apply IH1|]. split; [intros a; apply IH2|]. intros a b. apply H3. exact IH0. }
  exact H.
Qed.

Local Open Scope N_scope.

Ltac byte_arith := zify; Z.to_euclidean_division_equations; lia.

Lemma sextets_small (bytes : list N) :
  Forall (fun b => b < 256) bytes -> Forall (fun v => v < 64) (sextets bytes).
Proof.
  induction bytes as [| a | a b | a b c rest IH] using list_ind3; intros Hb; cbn [sextets].
  - constructor.
  - apply Forall_cons in Hb as [Ha _]. repeat constructor; byte_arith.
  - apply Forall_cons in Hb as [Ha Hb]. apply Forall_cons in Hb as [Hb _].
    repeat constructor; byte_arith.
  - apply Forall_cons in Hb as [Ha Hb]. apply Forall_cons in Hb as [Hb Hc].
    apply Forall_cons in Hc as [Hc Hrest].
    repeat (apply Forall_cons; split); [byte_arith.. | apply IH; exact Hrest].
Qed.

Lemma decode_sextets (bytes : list N) :
  Forall (fun b => b < 256) bytes -> decode_groups (sextets bytes) = bytes.
Proof.
  induction bytes as [| a | a b | a b c rest IH] using list_ind3; intros Hb;
    cbn [sextets decode_groups].
  - reflexivity.
  - apply Forall_cons in Hb as [Ha _]. f_equal. byte_arith.
  - apply Forall_cons in Hb as [Ha Hb]. apply Forall_cons in Hb as [Hb _].
    f_equal; [|f_equal]; byte_arith.
  - apply Forall_cons in Hb as [Ha Hb]. apply Forall_cons in Hb as [Hb Hc].
    apply Forall_cons in Hc as [Hc Hrest].
    rewrite (IH Hrest). f_equal; [|f_equal; [|f_equal]]; byte_arith.
Qed.

Local Close Scope N_scope.

Lemma sextets_length (bytes : list N) :
  length (sextets bytes) mod 4 = 0 \/ length (sextets bytes) mod 4 = 2 \/
  length (sextets bytes) mod 4 = 3.
Proof.
  induction bytes as [| a | a b | a b c rest IH] using list_ind3; cbn [sextets length];
    [left; reflexivity | right; left; reflexivity | right; right; reflexivity |].
  replace (S (S (S (S (length (sextets rest)))))) with (length (sextets rest) + 1 * 4) by lia.
  rewrite Nat.Div0.mod_add. exact IH.
Qed.

(** Every digit of the URL-safe alphabet, made standard, is a character of
    the alphabet of [atob] with the same value. *)
Lemma digit_decoded (v : N) :
  (v < 64)%N ->
  base64_value (standard (url_digit v)) = Some v /\
  ascii_whitespace (standard (url_digit v)) = false /\
  Ascii.eqb (standard (url_digit v)) "="%char = false.
Proof.
  intros Hv.
  assert (forallb (fun n =>
            let c := standard (url_digit (N.of_nat n)) in
            match base64_value c with
            | Some v' => N.eqb v' (N.of_nat n)
            | None => false
            end && negb (ascii_whitespace c) && negb (Ascii.eqb c "="%char))
          (seq 0 64) = true) as Hall by (vm_compute; reflexivity).
  rewrite forallb_forall in Hall.
  specialize (Hall (N.to_nat v)). rewrite N2Nat.id in Hall.
  assert (In (N.to_nat v) (seq 0 64)) as Hin by (apply in_seq; lia).
  specialize (Hall Hin). cbn zeta in Hall.
  apply andb_prop in Hall as [Hall Heq]. apply andb_prop in Hall as [Hval Hws].
  destruct (base64_value (standard (url_digit v))) as [v'|]; [|discriminate].
  apply N.eqb_eq in Hval. subst v'.
  repeat split; [apply negb_true_iff; exact Hws | apply negb_true_iff; exact Heq].
Qed.

Lemma without_trailing_equals_padding (l : list ascii) (k : nat) :
  Forall (fun c => Ascii.eqb c "="%char = false) l -> k <= 2 ->
  without_trailing_equals (l ++ replicate k "="%char) = l.
Proof.
  intros Hl Hk. unfold without_trailing_equals. rewrite rev_app_distr.
  assert (match rev l with
          | c :: _ => Ascii.eqb c "="%char = false
          | [] => True
          end) as Hlast.
  { destruct (rev l) as [|c r] eqn:Hr; [exact I|].
    rewrite Forall_forall in Hl. apply Hl. apply list_elem_of_In, in_rev.
    rewrite Hr. left. reflexivity. }
  destruct k as [|[|[|k]]]; [| | |lia]; simpl.
  - rewrite app_nil_r. destruct (rev l) as [|c r]; [reflexivity|]. rewrite Hlast. reflexivity.
  - destruct (rev l) as [|c r] eqn:Hr.
    + apply (f_equal (@rev ascii)) in Hr. rewrite rev_involutive in Hr. subst l. reflexivity.
    + rewrite Hlast, <- Hr. apply rev_involutive.
  - apply rev_involutive.
Qed.

(** X11.  [urlBase64ToUint8Array] decodes the URL-safe base64 text of any
    byte sequence, written without padding, back to that sequence. *)
Theorem urlBase64ToUint8Array_decodes (bytes : list N) :
  Forall (fun b => (b < 256)%N) bytes ->
  urlBase64ToUint8Array (base64url bytes) = Ok bytes.
Proof.
  intros Hb. unfold urlBase64ToUint8Array, atob.
  rewrite base64_of_chars. unfold base64url.
  rewrite String.list_ascii_of_string_of_list_ascii, map_map.
  rewrite <- (chars_length (String.string_of_list_ascii _)),
    String.list_ascii_of_string_of_list_ascii, length_map.
  pose proof (sextets_small bytes Hb) as Hsmall.
  set (k := (4 - length (sextets bytes) mod 4) mod 4).
  set (text := map (fun v => standard (url_digit v)) (sextets bytes)).
  assert (Forall (fun c => Ascii.eqb c "="%char = false) text) as Hne.
  { subst text. apply Forall_fmap. eapply Forall_impl; [exact Hsmall|].
    intros v Hv. apply (digit_decoded v Hv). }
  assert (List.filter (fun c => negb (ascii_whitespace c)) (text ++ replicate k "="%char)
          = text ++ replicate k "="%char) as ->.
  { apply forallb_filter_id. rewrite forallb_app. apply andb_true_intro. split.
    - subst text. rewrite forallb_forall. intros c Hc. apply in_map_iff in Hc as (v & <- & Hv).
      rewrite Forall_forall in Hsmall. apply list_elem_of_In in Hv.
      rewrite (proj1 (proj2 (digit_decoded v (Hsmall v Hv)))). reflexivity.
    - clear. induction k as [|k IH]; [reflexivity | exact IH]. }
  assert (length (text ++ replicate k "="%char) mod 4 = 0 /\ k <= 2) as [Hmod Hk].
  { rewrite length_app, length_replicate. subst text k. rewrite length_map.
    split; [apply padded_length|].
    destruct (sextets_length bytes) as [-> | [-> | ->]]; simpl; lia. }
  rewrite Hmod. cbn [Nat.eqb].
  rewrite (without_trailing_equals_padding text k Hne Hk).
  assert (length text mod 4 <> 1) as Hlen.
  { subst text. rewrite length_map.
    destruct (sextets_length bytes) as [-> | [-> | ->]]; discriminate. }
  apply Nat.eqb_neq in Hlen. rewrite Hlen.
  assert (mapM base64_value text = Some (sextets bytes)) as ->.
  { subst text. apply mapM_fmap_Forall_Some. eapply Forall_impl; [exact Hsmall|].
    intros v Hv. apply (digit_decoded v Hv). }
  rewrite (decode_sextets bytes Hb), String.list_ascii_of_string_of_list_ascii, map_map.
  f_equal. rewrite <- (map_id bytes) at 2. apply map_ext_in.
  intros b Hin. apply N_ascii_embedding.
  rewrite Forall_forall in Hb. apply Hb. apply list_elem_of_In. exact Hin.
Qed.

Lemma urlBase64ToUint8Array_decodes_witness :
  urlBase64ToUint8Array (base64url [4; 211; 97; 250; 16]%N) = Ok [4; 211; 97; 250; 16]%N.
Proof.
  apply urlBase64ToUint8Array_decodes. repeat constructor.
Defined.

Lemma standard_not_whitespace (c : ascii) :
  ascii_whitespace c = false -> ascii_whitespace (standard c) = false.
Proof.
  intros Hc. unfold standard.
  destruct (Ascii.eqb_spec c "-"%char) as [->|_]; [reflexivity|].
  destruct (Ascii.eqb_spec c "_"%char) as [->|_]; [reflexivity | exact Hc].
Qed.

Lemma without_trailing_equals_three (l : list ascii) :
  without_trailing_equals (l ++ ["="; "="; "="]%char) = l ++ ["="%char].
Proof.
  unfold without_trailing_equals. rewrite rev_app_distr. simpl.
  rewrite rev_involutive. reflexivity.
Qed.

(** X12.  A text without whitespace whose length is 1 modulo 4 is never
    decoded: three ['='] are appended, [atob] drops two of them, finds the
    third among the characters and throws [InvalidCharacterError]. *)
Theorem urlBase64ToUint8Array_rejects (s : string) :
  String.length s mod 4 = 1 ->
  (forall c, c ∈ String.list_ascii_of_string s -> ascii_whitespace c = false) ->
  urlBase64ToUint8Array s = Throw InvalidCharacterError.
Proof.
  intros Hmod Hws. unfold urlBase64ToUint8Array, atob.
  rewrite base64_of_chars, Hmod. change ((4 - 1) mod 4) with 3. cbn [replicate].
  set (text := map standard (String.list_ascii_of_string s)).
  assert (length text mod 4 = 1) as Hlen.
  { subst text. rewrite length_map, chars_length. exact Hmod. }
  assert (List.filter (fun c => negb (ascii_whitespace c)) (text ++ ["="; "="; "="]%char)
          = text ++ ["="; "="; "="]%char) as ->.
  { apply forallb_filter_id. rewrite forallb_app. apply andb_true_intro.
    split; [|reflexivity].
    subst text. rewrite forallb_forall. intros c Hc. apply in_map_iff in Hc as (x & <- & Hx).
    apply list_elem_of_In in Hx. rewrite (standard_not_whitespace x (Hws x Hx)). reflexivity. }
  assert (length (text ++ ["="; "="; "="]%char) mod 4 = 0) as ->.
  { rewrite length_app. simpl length.
    replace (length text + 3) with (length text + (4 - length text mod 4) mod 4).
    - apply padded_length.
    - rewrite Hlen. reflexivity. }
  cbn [Nat.eqb]. rewrite without_trailing_equals_three.
  assert (length (text ++ ["="%char]) mod 4 = 2) as ->.
  { rewrite length_app. simpl length.
    rewrite Nat.Div0.add_mod, Hlen. reflexivity. }
  cbn [Nat.eqb].
  rewrite (proj2 (mapM_None base64_value (text ++ ["="%char]))); [reflexivity|].
  apply Exists_app. right. constructor. reflexivity.
Qed.

Lemma urlBase64ToUint8Array_rejects_witness :
  urlBase64ToUint8Array "BPkx9" = Throw InvalidCharacterError.
Proof.
  apply urlBase64ToUint8Array_rejects; [reflexivity|].
  intros c Hc. repeat (apply elem_of_cons in Hc as [-> | Hc]; [reflexivity|]).
  inversion Hc.
Defined.

(** ** The lifecycle operations when the request goes out *)



(** An answer with an error: the alert is stored, inactive, and no success
    notice is shown. *)
Example createAlert_refused_by_backend :
  let env := mkEnv (Some "BPk") (Subscribed Sample.sub) "https://aggr.example/"
               (Snapshot (fun _ => Some 2100%float))
               (fun _ => Response 400 (BodyObject (error_response "too many alerts"))) in
  let w' := snd (createAlert env 0 [] None Sample.fresh) in
  notices (trace w') = [] /\
  db w' !! "ETH-USD" = Some [Sample.eth] /\
  emitted (trace w') = [EvAdd 2000%float "ETH-USD" 1700000000000%float].
Proof. repeat split; reflexivity. Qed.



(** The alert is removed here even when the backend cannot be reached. *)
Example removeAlert_while_offline :
  let w' := snd (removeAlert Sample.unreachable 0 (Some [0; 1]) Sample.fresh) in
  notices (trace w') = [] /\
  emitted (trace w') = [EvRemove 2000%float "ETH-USD"] /\
  db w' !! "ETH-USD" = Some [Sample.fired].
Proof. repeat split; reflexivity. Qed.

(** A subscription that cannot be acquired changes nothing but the trace of
    the attempt. *)
Lemma getPushSubscription_throws (env : Env) (w : World) (e : JsError) :
  fst (getPushSubscription env w) = Throw e ->
  exists w1,
    getPushSubscription env w = (Throw e, w1) /\
    heap w1 = heap w /\ db w1 = db w /\
    posts (trace w1) = posts (trace w) /\
    emitted (trace w1) = emitted (trace w) /\
    notices (trace w1) = notices (trace w).
Proof.
  unfold getPushSubscription.
  destruct (truthy_ostr (publicVapidKey env)); simpl; [|discriminate].
  destruct (pushSubscription w); [discriminate|].
  destruct (platform env); simpl; try discriminate; intros [= ->]; eexists;
    (split; [reflexivity|]); simpl;
    rewrite ?posts_app, ?emitted_app, ?notices_app; simpl; rewrite ?app_nil_r;
    repeat split.
Qed.

(** [unsubscribe] throws only before anything is posted: the subscription
    could not be acquired, or [toggleAlert] resolved to [undefined]. *)
Lemma unsubscribe_throws (env : Env) (m : string) (p : float) (w : World) (e : JsError) :
  fst (unsubscribe env m p w) = Throw e ->
  exists w1,
    unsubscribe env m p w = (Throw e, w1) /\
    heap w1 = heap w /\ db w1 = db w /\
    posts (trace w1) = posts (trace w) /\
    emitted (trace w1) = emitted (trace w) /\
    notices (trace w1) = notices (trace w).
Proof.
  intros Hthrow.
  destruct (getPushSubscription env w) as [[[sub|]|e'|] w1] eqn:Hsub.
  - destruct (fst (validateAlert env m p w1)) as [[|]|e'|] eqn:Hval.
    + exfalso. revert Hthrow.
      pose proof (proj1 (toggleAlert_posted env w w1 sub Hsub m p VNull (Some true) None Hval))
        as Hposted.
      unfold unsubscribe, bind.
      destruct (toggleAlert env m p VNull (Some true) None w) as [res w2].
      simpl in Hposted. subst res. unfold showNotice, log, ret.
      destruct (alert _); [discriminate|]. destruct (negb _); discriminate.
    + destruct (unsubscribe_declined env m p w
                  (or_intror (ex_intro _ sub (ex_intro _ w1 (conj Hsub Hval)))))
        as (w2 & Hun & Hh & Hd & _ & Hp & He & Hn).
      rewrite Hun in Hthrow. injection Hthrow as <-.
      exists w2. repeat split; assumption.
    + exfalso. revert Hval. unfold validateAlert, getPrice, bind.
      destruct (prices env) as [|stats]; [discriminate|]. simpl.
      destruct (stats m) as [mp|]; [|discriminate].
      destruct (truthy_num mp); [|discriminate].
      destruct (too_far p mp); discriminate.
    + exfalso. revert Hthrow. unfold unsubscribe, toggleAlert, bind. rewrite Hsub.
      destruct (validateAlert env m p w1) as [r w2]. simpl in Hval. subst r. discriminate.
  - assert (declined env m p w) as Hdecl by (left; rewrite Hsub; reflexivity).
    destruct (unsubscribe_declined env m p w Hdecl) as (w2 & Hun & Hh & Hd & _ & Hp & He & Hn).
    rewrite Hun in Hthrow. injection Hthrow as <-.
    exists w2. repeat split; assumption.
  - destruct (getPushSubscription_throws env w e') as (w2 & Hsub' & Hrest);
      [rewrite Hsub; reflexivity|].
    assert (unsubscribe env m p w = (Throw e', w2)) as Hun.
    { unfold unsubscribe, toggleAlert, bind. rewrite Hsub'. reflexivity. }
    rewrite Hun in Hthrow. injection Hthrow as <-.
    exists w2. split; [exact Hun | exact Hrest].
  - exfalso. revert Hthrow. unfold unsubscribe, toggleAlert, bind. rewrite Hsub. discriminate.
Qed.

(** X15.  A [removeAlert] of an alert that has not triggered whose
    unsubscription throws (the push subscription cannot be acquired, or
    [toggleAlert] resolved to [undefined]): nothing was posted; the error is
    caught; the registration-failure notice is shown when the alert is
    active, and nothing is shown otherwise; the remove event is emitted, the
    list without the entries at the removed price is persisted when a list
    is supplied, and no record changes. *)
Theorem removeAlert_catches (env : Env) (r : loc) (ls : option (list loc)) (w : World)
    (e : JsError) :
  triggered (heap w r) = false ->
  fst (unsubscribe env (market (heap w r)) (price (heap w r)) w) = Throw e ->
  let a := heap w r in
  let w' := snd (removeAlert env r ls w) in
  fst (removeAlert env r ls w) = Ok tt /\
  posts (trace w') = posts (trace w) /\
  notices (trace w')
    = notices (trace w) ++ (if active a then [NRegistrationFailure (e_message e)] else []) /\
  emitted (trace w') = emitted (trace w) ++ [EvRemove (price a) (market a)] /\
  heap w' = heap w /\
  db w' = match ls with
          | Some l => <[market a := without_price (price a) (map (heap w) l)]> (db w)
          | None => db w
          end.
Proof.
  intros Htrig Hthrow a w'. subst a w'.
  destruct (unsubscribe_throws _ _ _ _ _ Hthrow) as (w1 & Hun & Hh & Hd & Hp & He & Hn).
  destruct (removeAlert env r ls w) as [res w'] eqn:Heq.
  revert Heq. unfold removeAlert, bind, try_catch, read. rewrite Htrig.
  cbn [negb]. cbv beta iota. rewrite Hun, Hh.
  destruct (active (heap w r)); destruct ls as [l|];
    unfold showNotice, emit, log, deref, store_saveAlerts, ret, without_price;
    intros [= <- <-]; simpl;
    rewrite ?posts_app, ?emitted_app, ?notices_app; simpl;
    rewrite ?app_nil_r, ?Hh, ?Hd, ?Hp, ?He, ?Hn; repeat split.
Qed.

Lemma removeAlert_catches_witness :
  triggered (heap Sample.fresh 0) = false /\
  emitted (trace (snd (removeAlert Sample.denied 0 None Sample.fresh)))
    = emitted (trace Sample.fresh) ++ [EvRemove 2000%float "ETH-USD"].
Proof.
  split; [reflexivity|].
  exact (proj1 (proj2 (proj2 (proj2
           (removeAlert_catches Sample.denied 0 None Sample.fresh _ eq_refl eq_refl))))).
Defined.
